(** * PWT (persistent web terminal): the session manager of [server.js]

    A shallow embedding of the session table, the dtach bridge, the
    record store and the WebSocket message handler of [src/server.js],
    followed by the properties of the specification that are stated
    about them.

    Conventions of the embedding.
    - A JavaScript string is a sequence of code units; it is modelled by
      [string], and the operations the server uses on strings ([+=],
      [.length], [.slice], [.substring], [.endsWith]) are sequence
      operations that do not look inside a unit.
    - Objects with identity (session objects, pty handles, WebSocket
      connections) live in stores indexed by a reference; the [Map]
      [sessions] holds references, as do the closures of the pty
      callbacks.
    - Everything the handlers read from the outside world during one
      callback (the random source, the clock, the result of running
      dtach, the presence of socket files, the ready state of a socket,
      the PIN configuration) is a field of [Env].
    - Everything the handlers do to the outside world is an [effect]; a
      handler returns the effects it issued, in order. Writing a file,
      sending on a socket and spawning a pty are taken not to throw.
    - The heartbeat, the loop over the table of the shutdown handler,
      the parse of the command line and the choice of the port are
      functions of their own, beside the events of a run. Logging, the
      HTTP server for static files and the tunnel are not modelled. *)

From Stdlib Require Import ZArith Lia Bool DecimalString.
From Stdlib Require Import Sorting.Sorted Sorting.Permutation.
From stdpp Require Import base list strings.

Local Open Scope Z_scope.
Local Open Scope nat_scope.

(** ** JavaScript strings *)

Module JsString.

(** [drop n s] is [s] without its first [n] units. *)
Fixpoint drop (n : nat) (s : string) : string :=
  match n, s with
  | O, _ => s
  | S _, EmptyString => EmptyString
  | S n', String _ s' => drop n' s'
  end.

(** [s.slice(-n)]: the start index is [max (length - n) 0]; [-0] is
    [0], so [s.slice(-0)] is the whole string. *)
Definition slice_last (n : nat) (s : string) : string :=
  if Nat.eqb n 0 then s else drop (String.length s - n) s.

(** [s.substring(a, b)] for [a <= b]. *)
Definition substring (a b : nat) (s : string) : string :=
  String.substring a (b - a) s.

(** [s.endsWith(suffix)] *)
Definition endsWith (s suffix : string) : bool :=
  String.eqb (drop (String.length s - String.length suffix) s) suffix
  && Nat.leb (String.length suffix) (String.length s).

(** Truthiness of a string value: only the empty string is falsy. *)
Definition truthy (s : string) : bool :=
  match s with EmptyString => false | _ => true end.

(** The last [n] units of [s] (all of [s] when it has fewer). *)
Definition last_chars (n : nat) (s : string) : string :=
  drop (String.length s - n) s.

(** Concatenation of a list of chunks, oldest first. *)
Definition concat_all (ds : list string) : string :=
  foldr String.append EmptyString ds.

End JsString.


(** ** Data model *)

(** References to the three kinds of objects with identity. *)
Abbreviation conn := nat (only parsing).     (* a WebSocket object [ws] *)
Abbreviation ptyref := nat (only parsing).   (* a handle returned by [pty.spawn] *)
Abbreviation sref := nat (only parsing).     (* a session object *)

(** [session.status]: the server only ever stores these three strings. *)
Inductive Status := Detached | Running | Terminated.

Definition status_str (s : Status) : string :=
  match s with
  | Detached => "detached"
  | Running => "running"
  | Terminated => "terminated"
  end.

Definition status_eqb (a b : Status) : bool :=
  match a, b with
  | Detached, Detached | Running, Running | Terminated, Terminated => true
  | _, _ => false
  end.

(** A session object: [{ pty, buffer, status, name, createdAt, clients }].
    [clients] is a [Set] of connections, kept in insertion order. *)
Record session := mkSession {
  pty : option ptyref;
  buffer : string;
  status : Status;
  name : string;
  createdAt : Z;
  clients : list conn;
}.

(** The fields the handler keeps on a WebSocket object. *)
Record wsobj := mkWs {
  isAlive : bool;
  attachedSession : option string;
  isAuthenticated : bool;
}.

(** The record file of a session, [{id, name, buffer, status, createdAt}].
    [r_buffer] is [None] when the file has no (or an empty-valued)
    [buffer] member. *)
Record record := mkRecord {
  r_id : string;
  r_name : string;
  r_buffer : option string;
  r_status : string;
  r_createdAt : Z;
}.

(** An element of the array sent in a [sessions] message. *)
Record list_entry := mkEntry {
  e_id : string;
  e_name : string;
  e_status : Status;
  e_createdAt : Z;
}.

(** Server to client messages. *)
Inductive server_msg :=
| auth_required (pinLength : Z)
| auth_success
| auth_failed
| error (message : string)
| sessions_msg (l : list list_entry)
| created (sessionId : string)
| attached (sessionId name : string) (st : Status)
| history (sessionId data : string)
| output (sessionId data : string)
| terminated (sessionId : string)
| reactivated (sessionId : string)
| pong.

(** Client to server messages, after [JSON.parse], with the members the
    handler reads. [cols] and [rows] are numbers; a missing [name] is
    [None]. [MOther] is any other value of [type]. *)
Inductive client_msg :=
| MAuth (pin : string)
| MList
| MCreate (name : option string)
| MAttach (sessionId : string)
| MDetach
| MInput (data : string)
| MResize (cols rows : Z)
| MTerminate (sessionId : string)
| MReactivate (sessionId : string)
| MDelete (sessionId : string)
| MRename (sessionId : string) (name : option string)
| MPing
| MOther (type : string).

(** What a handler does to the world outside the process. *)
Inductive effect :=
| Send (c : conn) (m : server_msg)
| WriteRecord (r : record)
| UnlinkRecord (sessionId : string)
| UnlinkSocket (sessionId : string)
| UnlinkSocketLater (sessionId : string)
| DtachCreate (sessionId : string)
| KillSocketOwners (sessionId : string)
| PtySpawn (p : ptyref) (sessionId : string)
| PtyKill (p : ptyref)
| PtyWrite (p : ptyref) (data : string)
| PtyResize (p : ptyref) (cols rows : Z).

(** [getPinConfig()] *)
Record pinConfig := mkPin { pin_hash : string; pin_length : Z }.

(** What a handler reads from the world during one callback. The socket
    file of a session is looked at once by every handler that needs it,
    except by the attach handler, which looks at it a second time inside
    [attachToDtach]. *)
Record Env := mkEnv {
  random36 : string;                   (* Math.random().toString(36) *)
  now : Z;                             (* Date.now() *)
  dtach_create_ok : bool;              (* the execSync of dtach -n returned *)
  socket_exists : string -> bool;      (* fs.existsSync(getSocketPath(id)) *)
  socket_exists_again : string -> bool;
  ready_open : conn -> bool;           (* readyState === WebSocket.OPEN *)
  getPinConfig : option pinConfig;
  hashPin : string -> string;          (* sha256, hex *)
}.

(** The process state: the session objects, the [Map] [sessions] in
    insertion order, the environment of the callbacks of every pty
    handle spawned so far, the WebSocket objects and [wss.clients]. *)
Record state := mkState {
  heap : list session;
  sessions : list (string * sref);
  ptys : list (string * sref);
  conns : list wsobj;
  wss_clients : list conn;
}.

Definition initial_state : state := mkState [] [] [] [] [].

#[global] Instance session_inhabited : Inhabited session :=
  populate (mkSession None EmptyString Terminated EmptyString 0%Z []).
#[global] Instance wsobj_inhabited : Inhabited wsobj :=
  populate (mkWs false None false).

Definition MAX_BUFFER_SIZE : nat := Z.to_nat 100000.

(** ** The [Map] and [Set] of JavaScript, in insertion order *)

Module JsMap.
Section Ops.
Context {V : Type}.

Fixpoint get (k : string) (m : list (string * V)) : option V :=
  match m with
  | [] => None
  | (k', v) :: m' => if String.eqb k k' then Some v else get k m'
  end.

(** [set] keeps the position of a key that is present and appends a
    new one. *)
Fixpoint set (k : string) (v : V) (m : list (string * V)) : list (string * V) :=
  match m with
  | [] => [(k, v)]
  | (k', v') :: m' =>
      if String.eqb k k' then (k, v) :: m' else (k', v') :: set k v m'
  end.

Fixpoint delete (k : string) (m : list (string * V)) : list (string * V) :=
  match m with
  | [] => []
  | (k', v') :: m' =>
      if String.eqb k k' then m' else (k', v') :: delete k m'
  end.

Definition size (m : list (string * V)) : nat := length m.

End Ops.
End JsMap.

Module JsSet.

Definition has (c : conn) (s : list conn) : bool :=
  existsb (Nat.eqb c) s.

Definition add (c : conn) (s : list conn) : list conn :=
  if has c s then s else s ++ [c].

Definition delete (c : conn) (s : list conn) : list conn :=
  filter (fun x => x <> c) s.

End JsSet.

(** ** Handlers as state transformers that issue effects *)

Definition M (A : Type) : Type := state -> A * state * list effect.

Definition ret {A} (a : A) : M A := fun st => (a, st, []).

Definition bind {A B} (m : M A) (f : A -> M B) : M B :=
  fun st =>
    let '(a, st1, e1) := m st in
    let '(b, st2, e2) := f a st1 in
    (b, st2, e1 ++ e2).

Notation "'let*' x ':=' m 'in' k" := (bind m (fun x => k))
  (at level 10, x name, m at level 100, k at level 200, only parsing).
Notation "m ;;; k" := (bind m (fun _ => k))
  (at level 199, k at level 200, only parsing).

Definition gets {A} (f : state -> A) : M A := fun st => (f st, st, []).
Definition modify (f : state -> state) : M unit := fun st => (tt, f st, []).
Definition emit (e : effect) : M unit := fun st => (tt, st, [e]).
Definition when (b : bool) (m : M unit) : M unit := if b then m else ret tt.

(** [l.forEach(f)] *)
Fixpoint forEach {A} (l : list A) (f : A -> M unit) : M unit :=
  match l with
  | [] => ret tt
  | x :: l' => f x ;;; forEach l' f
  end.

(** The result, the final state and the effects of running a handler. *)
Definition result {A} (x : A * state * list effect) : A := fst (fst x).
Definition final {A} (x : A * state * list effect) : state := snd (fst x).
Definition effects {A} (x : A * state * list effect) : list effect := snd x.

(** *** Access to the stores *)

Definition with_heap (f : list session -> list session) (st : state) : state :=
  mkState (f (heap st)) (sessions st) (ptys st) (conns st) (wss_clients st).
Definition with_sessions (f : list (string * sref) -> list (string * sref))
    (st : state) : state :=
  mkState (heap st) (f (sessions st)) (ptys st) (conns st) (wss_clients st).
Definition with_ptys (f : list (string * sref) -> list (string * sref))
    (st : state) : state :=
  mkState (heap st) (sessions st) (f (ptys st)) (conns st) (wss_clients st).
Definition with_conns (f : list wsobj -> list wsobj) (st : state) : state :=
  mkState (heap st) (sessions st) (ptys st) (f (conns st)) (wss_clients st).
Definition with_wss_clients (f : list conn -> list conn) (st : state) : state :=
  mkState (heap st) (sessions st) (ptys st) (conns st) (f (wss_clients st)).

(** Reading the session object behind a reference, and assigning to its
    members. *)
Definition deref (r : sref) (st : state) : session := heap st !!! r.
Definition mutate (r : sref) (f : session -> session) : M unit :=
  modify (with_heap (alter f r)).

Definition set_pty (v : option ptyref) (s : session) : session :=
  mkSession v (buffer s) (status s) (name s) (createdAt s) (clients s).
Definition set_buffer (v : string) (s : session) : session :=
  mkSession (pty s) v (status s) (name s) (createdAt s) (clients s).
Definition set_status (v : Status) (s : session) : session :=
  mkSession (pty s) (buffer s) v (name s) (createdAt s) (clients s).
Definition set_name (v : string) (s : session) : session :=
  mkSession (pty s) (buffer s) (status s) v (createdAt s) (clients s).
Definition set_clients (v : list conn) (s : session) : session :=
  mkSession (pty s) (buffer s) (status s) (name s) (createdAt s) v.

(** [new] of a session object. *)
Definition alloc (s : session) : M sref :=
  fun st => (length (heap st), with_heap (fun h => h ++ [s]) st, []).

Definition ws_of (c : conn) (st : state) : wsobj := conns st !!! c.
Definition mutate_ws (c : conn) (f : wsobj -> wsobj) : M unit :=
  modify (with_conns (alter f c)).
Definition set_isAlive (v : bool) (w : wsobj) : wsobj :=
  mkWs v (attachedSession w) (isAuthenticated w).
Definition set_attachedSession (v : option string) (w : wsobj) : wsobj :=
  mkWs (isAlive w) v (isAuthenticated w).
Definition set_isAuthenticated (v : bool) (w : wsobj) : wsobj :=
  mkWs (isAlive w) (attachedSession w) v.

(** [sessions.get(id)] *)
Definition sessions_get (sessionId : string) (st : state) : option sref :=
  JsMap.get sessionId (sessions st).

(** ** The session manager *)

(** [Math.random().toString(36).substring(2, 10)]: nothing but the random
    source decides the id. *)
Definition generateId (env : Env) : string :=
  JsString.substring 2 10 (random36 env).

Definition socketExists (env : Env) (sessionId : string) : bool :=
  socket_exists env sessionId.

Definition saveSession (sessionId : string) : M unit :=
  let* o := gets (sessions_get sessionId) in
  match o with
  | None => ret tt
  | Some r =>
      let* s := gets (deref r) in
      emit (WriteRecord
              (mkRecord sessionId (name s) (Some (buffer s))
                 (status_str (status s)) (createdAt s)))
  end.

(** [list.sort((a, b) => a.createdAt - b.createdAt)]: a stable sort;
    insertion from the right end keeps equal keys in their order. *)
Fixpoint sort_insert (x : list_entry) (l : list list_entry) : list list_entry :=
  match l with
  | [] => [x]
  | y :: l' =>
      if (e_createdAt x <=? e_createdAt y)%Z then x :: y :: l'
      else y :: sort_insert x l'
  end.

Definition sort_by_createdAt (l : list list_entry) : list list_entry :=
  foldr sort_insert [] l.

Definition getSessionList (st : state) : list list_entry :=
  sort_by_createdAt
    (map (fun '(id, r) =>
            let session := deref r st in
            mkEntry id (name session) (status session) (createdAt session))
         (sessions st)).

(** A send guarded by [client.readyState === WebSocket.OPEN]. *)
Definition send_if_open (env : Env) (m : server_msg) (client : conn) : M unit :=
  when (ready_open env client) (emit (Send client m)).

Definition broadcastSessionList (env : Env) : M unit :=
  let* list := gets getSessionList in
  let* cs := gets wss_clients in
  forEach cs (send_if_open env (sessions_msg list)).

(** Runs [dtach -n]; [false] when [execSync] throws. *)
Definition createDtachSession (env : Env) (sessionId : string) : M bool :=
  emit (DtachCreate sessionId) ;;;
  ret (dtach_create_ok env).

(** [attachToDtach] looks at the socket file itself (the second look of
    the attach handler) before it spawns the pty. The callbacks
    registered on the new handle close over [sessionId] and [session];
    they are [onData] and [onExit] below, run with the entry of [ptys]
    for the handle. [pty.spawn] is taken not to throw. *)
Definition attachToDtach (env : Env) (sessionId : string) (session : sref) : M bool :=
  if negb (socket_exists_again env sessionId) then ret false
  else
    let* p := gets (fun st => length (ptys st)) in
    modify (with_ptys (fun l => l ++ [(sessionId, session)])) ;;;
    emit (PtySpawn p sessionId) ;;;
    mutate session (set_pty (Some p)) ;;;
    mutate session (set_status Running) ;;;
    ret true.

(** [session.buffer += data], cut to the last [MAX_BUFFER_SIZE] units. *)
Definition appendOutput (buffer data : string) : string :=
  let b := buffer +:+ data in
  if Nat.ltb MAX_BUFFER_SIZE (String.length b)
  then JsString.slice_last MAX_BUFFER_SIZE b
  else b.

(** [ptyProcess.onData] callback of a handle spawned for [sessionId],
    [session]. *)
Definition onData (env : Env) (sessionId : string) (session : sref)
    (data : string) : M unit :=
  mutate session (fun s => set_buffer (appendOutput (buffer s) data) s) ;;;
  let* s := gets (deref session) in
  forEach (clients s) (send_if_open env (output sessionId data)).

(** [ptyProcess.onExit] callback. *)
Definition onExit (env : Env) (sessionId : string) (session : sref) : M unit :=
  mutate session (set_pty None) ;;;
  (if socketExists env sessionId
   then mutate session (set_status Detached)
   else mutate session (set_status Terminated)) ;;;
  saveSession sessionId ;;;
  broadcastSessionList env.

(** [Session ${sessions.size + 1}] *)
Definition default_name (n : nat) : string :=
  "Session " +:+ NilEmpty.string_of_uint (Nat.to_uint (n + 1)).

(** [name || default] *)
Definition name_or (name : option string) (default : string) : string :=
  match name with
  | Some n => if JsString.truthy n then n else default
  | None => default
  end.

Definition createSession (env : Env) (name : option string) : M (option string) :=
  let sessionId := generateId env in
  let* ok := createDtachSession env sessionId in
  if negb ok then ret None
  else
    let* size := gets (fun st => JsMap.size (sessions st)) in
    let* session := alloc (mkSession None EmptyString Detached
                             (name_or name (default_name size)) (now env) []) in
    modify (with_sessions (JsMap.set sessionId session)) ;;;
    saveSession sessionId ;;;
    ret (Some sessionId).

Definition killDtachSocket (env : Env) (sessionId : string) : M unit :=
  if negb (socket_exists env sessionId) then ret tt
  else
    emit (KillSocketOwners sessionId) ;;;
    emit (UnlinkSocketLater sessionId).

Definition terminateSession (env : Env) (sessionId : string) : M bool :=
  let* o := gets (sessions_get sessionId) in
  match o with
  | None => ret false
  | Some session =>
      let* s := gets (deref session) in
      match pty s with
      | Some p => emit (PtyKill p) ;;; mutate session (set_pty None)
      | None => ret tt
      end ;;;
      killDtachSocket env sessionId ;;;
      mutate session (set_status Terminated) ;;;
      saveSession sessionId ;;;
      let* s := gets (deref session) in
      forEach (clients s) (send_if_open env (terminated sessionId)) ;;;
      ret true
  end.

Definition reactivateSession (env : Env) (sessionId : string) : M bool :=
  let* o := gets (sessions_get sessionId) in
  match o with
  | None => ret false
  | Some session =>
      let* s := gets (deref session) in
      if negb (status_eqb (status s) Terminated) then ret false
      else
        let* ok := createDtachSession env sessionId in
        if negb ok then ret false
        else
          mutate session (set_status Detached) ;;;
          saveSession sessionId ;;;
          let* s := gets (deref session) in
          forEach (clients s) (send_if_open env (reactivated sessionId)) ;;;
          ret true
  end.

Definition deleteSession (env : Env) (sessionId : string) : M bool :=
  let* o := gets (sessions_get sessionId) in
  match o with
  | None => ret false
  | Some session =>
      let* s := gets (deref session) in
      match pty s with
      | Some p => emit (PtyKill p)
      | None => ret tt
      end ;;;
      killDtachSocket env sessionId ;;;
      modify (with_sessions (JsMap.delete sessionId)) ;;;
      emit (UnlinkRecord sessionId) ;;;
      emit (UnlinkSocket sessionId) ;;;
      ret true
  end.

(** ** Startup: [loadSessions] *)

(** The status given to a restored session. *)
Definition restored_status (stored : string) (hasSocket : bool) : Status :=
  if String.eqb stored "terminated" then Terminated
  else if hasSocket then Detached
  else Terminated.

(** [data.buffer || ''] *)
Definition buffer_or_empty (b : option string) : string :=
  match b with Some s => s | None => EmptyString end.

(** The loop of [loadSessions] over the directory listing. A file comes
    with its parsed content, [None] when reading or parsing it (or
    reading a member of the parsed value) throws: the [try] encloses the
    loop, so the first such file ends it. *)
Fixpoint loadSessions (env : Env) (files : list (string * option record)) : M unit :=
  match files with
  | [] => ret tt
  | (file, content) :: rest =>
      if negb (JsString.endsWith file ".json") then loadSessions env rest
      else
        match content with
        | None => ret tt
        | Some data =>
            let hasSocket := socketExists env (r_id data) in
            let status := restored_status (r_status data) hasSocket in
            let* session := alloc (mkSession None (buffer_or_empty (r_buffer data))
                                     status (r_name data) (r_createdAt data) []) in
            modify (with_sessions (JsMap.set (r_id data) session)) ;;;
            loadSessions env rest
        end
  end.

(** ** The WebSocket server *)

(** [ws.attachedSession] when it is truthy. *)
Definition attached_id (w : wsobj) : option string :=
  match attachedSession w with
  | Some a => if JsString.truthy a then Some a else None
  | None => None
  end.

(** [session.clients.delete(ws)] on the session [ws] is attached to, if
    that session is still in the table. *)
Definition leave_attached (ws : conn) : M unit :=
  let* w := gets (ws_of ws) in
  match attached_id w with
  | None => ret tt
  | Some prev =>
      let* o := gets (sessions_get prev) in
      match o with
      | None => ret tt
      | Some prevSession =>
          mutate prevSession (fun s => set_clients (JsSet.delete ws (clients s)) s)
      end
  end.

Definition is_some {A} (o : option A) : bool :=
  match o with Some _ => true | None => false end.

(** The block of [case 'attach'] that brings the bridge up: taken when
    the session has no handle and is not terminated. The result of
    [attachToDtach] is not looked at. *)
Definition bridge (env : Env) (sessionId : string) (session : sref) : M unit :=
  let* s := gets (deref session) in
  if negb (is_some (pty s)) && negb (status_eqb (status s) Terminated)
  then
    if socketExists env sessionId
    then attachToDtach env sessionId session ;;; broadcastSessionList env
    else
      mutate session (set_status Terminated) ;;;
      saveSession sessionId ;;;
      broadcastSessionList env
  else ret tt.

(** [case 'attach'] *)
Definition handle_attach (env : Env) (ws : conn) (sessionId : string) : M unit :=
  let* o := gets (sessions_get sessionId) in
  match o with
  | None => emit (Send ws (error "Session not found"))
  | Some session =>
      leave_attached ws ;;;
      bridge env sessionId session ;;;
      mutate_ws ws (set_attachedSession (Some sessionId)) ;;;
      mutate session (fun s => set_clients (JsSet.add ws (clients s)) s) ;;;
      let* s := gets (deref session) in
      emit (Send ws (attached sessionId (name s) (status s))) ;;;
      when (JsString.truthy (buffer s))
        (emit (Send ws (history sessionId (buffer s))))
  end.

(** [case 'detach'] *)
Definition handle_detach (ws : conn) : M unit :=
  let* w := gets (ws_of ws) in
  match attached_id w with
  | None => ret tt
  | Some _ =>
      leave_attached ws ;;;
      mutate_ws ws (set_attachedSession None)
  end.

(** [case 'input'] *)
Definition handle_input (ws : conn) (data : string) : M unit :=
  let* w := gets (ws_of ws) in
  match attached_id w with
  | None => ret tt
  | Some a =>
      let* o := gets (sessions_get a) in
      match o with
      | None => ret tt
      | Some session =>
          let* s := gets (deref session) in
          match pty s with
          | Some p => when (status_eqb (status s) Running) (emit (PtyWrite p data))
          | None => ret tt
          end
      end
  end.

(** Truthiness of a number. *)
Definition truthy_num (z : Z) : bool := negb (z =? 0)%Z.

(** [case 'resize'] *)
Definition handle_resize (ws : conn) (cols rows : Z) : M unit :=
  let* w := gets (ws_of ws) in
  match attached_id w with
  | None => ret tt
  | Some a =>
      let* o := gets (sessions_get a) in
      match o with
      | None => ret tt
      | Some session =>
          let* s := gets (deref session) in
          match pty s with
          | Some p =>
              when (truthy_num cols && truthy_num rows) (emit (PtyResize p cols rows))
          | None => ret tt
          end
      end
  end.

(** [case 'rename'] *)
Definition handle_rename (env : Env) (sessionId : string) (name : option string)
    : M unit :=
  let* o := gets (sessions_get sessionId) in
  match o, name with
  | Some session, Some n =>
      if JsString.truthy n
      then
        mutate session (set_name n) ;;;
        saveSession sessionId ;;;
        broadcastSessionList env
      else ret tt
  | _, _ => ret tt
  end.

Definition verifyPin (env : Env) (pin hash : string) : bool :=
  String.eqb (hashPin env pin) hash.

(** The part of the message handler for [msg.type === 'auth']. *)
Definition handle_auth (env : Env) (ws : conn) (pin : string) : M unit :=
  match getPinConfig env with
  | None =>
      mutate_ws ws (set_isAuthenticated true) ;;;
      emit (Send ws auth_success) ;;;
      let* list := gets getSessionList in
      emit (Send ws (sessions_msg list))
  | Some pinConfig =>
      if verifyPin env pin (pin_hash pinConfig)
      then
        mutate_ws ws (set_isAuthenticated true) ;;;
        emit (Send ws auth_success) ;;;
        let* list := gets getSessionList in
        emit (Send ws (sessions_msg list))
      else emit (Send ws auth_failed)
  end.

(** The [switch] of the message handler, reached by an authenticated
    connection. *)
Definition dispatch (env : Env) (ws : conn) (msg : client_msg) : M unit :=
  match msg with
  | MAuth _ => ret tt
  | MList =>
      let* list := gets getSessionList in
      emit (Send ws (sessions_msg list))
  | MCreate name =>
      let* sessionId := createSession env name in
      match sessionId with
      | Some id =>
          if JsString.truthy id
          then emit (Send ws (created id)) ;;; broadcastSessionList env
          else emit (Send ws (error "Failed to create session"))
      | None => emit (Send ws (error "Failed to create session"))
      end
  | MAttach sessionId => handle_attach env ws sessionId
  | MDetach => handle_detach ws
  | MInput data => handle_input ws data
  | MResize cols rows => handle_resize ws cols rows
  | MTerminate sessionId =>
      let* ok := terminateSession env sessionId in
      when ok (broadcastSessionList env)
  | MReactivate sessionId =>
      let* ok := reactivateSession env sessionId in
      when ok (broadcastSessionList env)
  | MDelete sessionId =>
      let* ok := deleteSession env sessionId in
      when ok (broadcastSessionList env)
  | MRename sessionId name => handle_rename env sessionId name
  | MPing =>
      mutate_ws ws (set_isAlive true) ;;;
      emit (Send ws pong)
  | MOther _ => ret tt
  end.

(** [ws.on('message')]. The message is [None] when [JSON.parse] or the
    read of [msg.type] throws: the [catch] only logs. *)
Definition on_message (env : Env) (ws : conn) (message : option client_msg) : M unit :=
  match message with
  | None => ret tt
  | Some (MAuth pin) => handle_auth env ws pin
  | Some msg =>
      let* w := gets (ws_of ws) in
      if negb (isAuthenticated w)
      then emit (Send ws (error "Not authenticated"))
      else dispatch env ws msg
  end.

(** [wss.on('connection')]: a new WebSocket object, registered in
    [wss.clients]. *)
Definition on_connection (env : Env) : M conn :=
  let* ws := gets (fun st => length (conns st)) in
  modify (with_conns (fun l => l ++ [mkWs true None (negb (is_some (getPinConfig env)))])) ;;;
  modify (with_wss_clients (fun l => l ++ [ws])) ;;;
  match getPinConfig env with
  | Some pinConfig => emit (Send ws (auth_required (pin_length pinConfig)))
  | None =>
      let* list := gets getSessionList in
      emit (Send ws (sessions_msg list))
  end ;;;
  ret ws.

(** [ws.on('close')], with the removal from [wss.clients] that the
    library does. *)
Definition on_close (ws : conn) : M unit :=
  modify (with_wss_clients (JsSet.delete ws)) ;;;
  leave_attached ws.

(** The periodic save. *)
Definition save_all : M unit :=
  let* m := gets sessions in
  forEach m (fun '(id, _) => saveSession id).

(** What can happen to the process after startup. *)
Inductive event :=
| Connection
| Message (ws : conn) (message : option client_msg)
| Close (ws : conn)
| PtyData (p : ptyref) (data : string)
| PtyExit (p : ptyref)
| SaveInterval.

Definition step (env : Env) (ev : event) : M unit :=
  match ev with
  | Connection => on_connection env ;;; ret tt
  | Message ws message => on_message env ws message
  | Close ws => on_close ws
  | PtyData p data =>
      let* o := gets (fun st => ptys st !! p) in
      match o with
      | Some (sessionId, session) => onData env sessionId session data
      | None => ret tt
      end
  | PtyExit p =>
      let* o := gets (fun st => ptys st !! p) in
      match o with
      | Some (sessionId, session) => onExit env sessionId session
      | None => ret tt
      end
  | SaveInterval => save_all
  end.

(** A run: every event comes with what the world answers during it. *)
Fixpoint run (evs : list (Env * event)) (st : state) : state * list effect :=
  match evs with
  | [] => (st, [])
  | (env, ev) :: rest =>
      let '(_, st1, e1) := step env ev st in
      let '(st2, e2) := run rest st1 in
      (st2, e1 ++ e2)
  end.

(** ** The heartbeat *)

(** The callback of [heartbeatInterval] over [wss.clients].
    [ws.terminate()] destroys the socket; its [close] event comes later,
    as an event of its own. The callback gives the connections it has
    terminated, in the order of the visit. *)
Fixpoint heartbeat_each (cs : list conn) : M (list conn) :=
  match cs with
  | [] => ret []
  | ws :: rest =>
      let* w := gets (ws_of ws) in
      if negb (isAlive w)
      then
        let* terminated := heartbeat_each rest in
        ret (ws :: terminated)
      else
        mutate_ws ws (set_isAlive false) ;;;
        heartbeat_each rest
  end.

Definition heartbeat : M (list conn) :=
  let* cs := gets wss_clients in
  heartbeat_each cs.

(** ** Shutdown *)

(** The loop over the table in the [SIGINT] handler: the handle is
    killed, which leaves dtach running; the status becomes what the
    socket file says; the record is written. *)
Definition shutdown_sessions (env : Env) : M unit :=
  let* m := gets sessions in
  forEach m (fun '(id, session) =>
    let* s := gets (deref session) in
    match pty s with
    | Some p => emit (PtyKill p)
    | None => ret tt
    end ;;;
    mutate session (set_status (if socketExists env id then Detached else Terminated)) ;;;
    saveSession id).

(** ** The command line *)

Module Cli.

(** [s.includes(sub)] *)
Fixpoint includes (s sub : string) : bool :=
  String.prefix sub s
  || match s with
     | EmptyString => false
     | String _ s' => includes s' sub
     end.

(** [s.startsWith(p)] *)
Definition startsWith (s p : string) : bool := String.prefix p s.

(** [\d] *)
Definition is_digit (c : Ascii.ascii) : bool :=
  (48 <=? Ascii.nat_of_ascii c) && (Ascii.nat_of_ascii c <=? 57).

Fixpoint digits_only (s : string) : bool :=
  match s with
  | EmptyString => true
  | String c s' => is_digit c && digits_only s'
  end.

(** [/^\d+$/.test(s)] *)
Definition test_digits (s : string) : bool :=
  JsString.truthy s && digits_only s.

(** [/^\d{4,10}$/.test(s)] *)
Definition test_pin (s : string) : bool :=
  digits_only s && (4 <=? String.length s) && (String.length s <=? 10).

Definition showHelp (args : list string) : bool :=
  existsb (String.eqb "-h") args || existsb (String.eqb "--help") args.

Definition useCaffeinate (args : list string) : bool :=
  existsb (fun arg => includes arg "c" && startsWith arg "-"
                      && negb (includes arg "help") && negb (includes arg "p"))
    args.

Definition useTunnel (args : list string) : bool :=
  existsb (fun arg => includes arg "t" && startsWith arg "-"
                      && negb (includes arg "help") && negb (includes arg "p"))
    args.

(** [args.findIndex(f)], [None] for [-1]. *)
Fixpoint findIndex {A} (f : A -> bool) (l : list A) : option nat :=
  match l with
  | [] => None
  | x :: l' => if f x then Some 0 else option_map S (findIndex f l')
  end.

Definition pinIndex (args : list string) : option nat :=
  findIndex (fun arg => String.eqb arg "-p" || String.eqb arg "--pin") args.

(** The pair [(setPinValue, clearPin)] after the parse of the [-p]
    flag. *)
Definition parse_pin (args : list string) : option string * bool :=
  match pinIndex args with
  | None => (None, false)
  | Some i =>
      match args !! (i + 1) with
      | Some nextArg =>
          if JsString.truthy nextArg && test_digits nextArg
          then (Some nextArg, false)
          else (None, true)
      | None => (None, true)
      end
  end.

(** What the top of the script does with the arguments: it exits after
    the usage, after the removal of the PIN, after the refusal or the
    storage of a new one, or goes on to start the server with the two
    options. *)
Inductive startup_result :=
| Help                                    (* usage printed, exit 0 *)
| PinRemoved                              (* both keys deleted from the config, exit 0 *)
| PinRejected                             (* exit 1 *)
| PinSet (pinHash : string) (pinLength : nat)   (* config written, exit 0 *)
| Continue (caffeinate tunnel : bool).

Definition startup (hashPin : string -> string) (args : list string) : startup_result :=
  if showHelp args then Help
  else
    let '(setPinValue, clearPin) := parse_pin args in
    if clearPin then PinRemoved
    else
      match setPinValue with
      | Some v =>
          if negb (test_pin v) then PinRejected
          else PinSet (hashPin v) (String.length v)
      | None => Continue (useCaffeinate args) (useTunnel args)
      end.

End Cli.

(** ** The choice of the port *)

(** The outcome of [findAvailablePort]. *)
Inductive port_result :=
| Found (port : Z)
| NoPort                  (* [throw new Error('No available port found')] *)
| ProbeFailed.            (* the promise of [tryPort] is rejected *)

(** The [while] loop of [findAvailablePort] with [left] ports still to
    try. [tryPort port] is [Some true] when the test server listens,
    [Some false] on [EADDRINUSE], [None] on another error. The start
    port is a number, as the default port is; a port taken from the
    environment is a string, for which [startPort + 100] is not a sum,
    and is outside this definition. *)
Fixpoint find_port (tryPort : Z -> option bool) (port : Z) (left : nat) : port_result :=
  match left with
  | O => NoPort
  | S left' =>
      match tryPort port with
      | None => ProbeFailed
      | Some true => Found port
      | Some false => find_port tryPort (port + 1) left'
      end
  end.

Definition findAvailablePort (tryPort : Z -> option bool) (startPort : Z) : port_result :=
  find_port tryPort startPort 100.

(** * Notions used in the statements *)

(** The sends of a guarded broadcast of [m] to the connections [l]. *)
Fixpoint sends (env : Env) (m : server_msg) (l : list conn) : list effect :=
  match l with
  | [] => []
  | c :: l' =>
      if ready_open env c then Send c m :: sends env m l' else sends env m l'
  end.

(** What [saveSession] writes in a given state. *)
Definition saved (sessionId : string) (st : state) : list effect :=
  match sessions_get sessionId st with
  | None => []
  | Some r =>
      [WriteRecord (mkRecord sessionId (name (deref r st)) (Some (buffer (deref r st)))
                      (status_str (status (deref r st))) (createdAt (deref r st)))]
  end.

Definition is_auth (msg : client_msg) : bool :=
  match msg with MAuth _ => true | _ => false end.

(** The data events of one pty handle, each with the world's answers
    during it. *)
Definition data_events (p : ptyref) (ds : list (Env * string)) : list (Env * event) :=
  map (fun '(env, data) => (env, PtyData p data)) ds.

(** The session object [createSession] makes. *)
Definition new_session (env : Env) (name : option string) (st : state) : session :=
  mkSession None EmptyString Detached
    (name_or name (default_name (JsMap.size (sessions st)))) (now env) [].

(** The state after the object behind [r] has become [s]. *)
Definition store (r : sref) (s : session) (st : state) : state :=
  with_heap (fun h => <[r := s]> h) st.

(** The effects the bridge block of the attach handler can issue: the
    spawn of a pty, the write of a record, a session-list message. *)
Definition bridge_effect (e : effect) : bool :=
  match e with
  | PtySpawn _ _ | WriteRecord _ | Send _ (sessions_msg _) => true
  | _ => false
  end.

(** The entries of the table, in the order of the [Map]. *)
Definition table_entries (st : state) : list list_entry :=
  map (fun '(id, r) =>
         mkEntry id (name (deref r st)) (status (deref r st)) (createdAt (deref r st)))
      (sessions st).

Definition createdAt_le (a b : list_entry) : Prop :=
  (e_createdAt a <= e_createdAt b)%Z.

(** The state after [loadSessions] has taken in one record. *)
Definition load_one (env : Env) (data : record) (st : state) : state :=
  with_sessions (JsMap.set (r_id data) (length (heap st)))
    (with_heap (fun h => h ++ [mkSession None (buffer_or_empty (r_buffer data))
                                 (restored_status (r_status data)
                                    (socket_exists env (r_id data)))
                                 (r_name data) (r_createdAt data) []]) st).

(** A file of the listing that does not stop the loop: its name does not
    end in [.json], or it parses. *)
Definition loads_or_skipped (f : string * option record) : Prop :=
  JsString.endsWith (fst f) ".json" = true -> snd f <> None.

(** [st'] has every session object of [st], with the buffer it had, and
    every pty handle of [st], with the callbacks it had. *)
Definition keeps_buffers (st st' : state) : Prop :=
  (forall (r : sref) s, heap st !! r = Some s ->
     exists s', heap st' !! r = Some s' /\ buffer s' = buffer s)
  /\ (forall (p : ptyref) x, ptys st !! p = Some x -> ptys st' !! p = Some x).

Definition Keeps {A} (m : M A) : Prop :=
  forall st, keeps_buffers st (final (m st)).

(** The output delivered during a run to the callbacks of the handles of
    the session object [r], oldest first. *)
Fixpoint written_to (r : sref) (evs : list (Env * event)) (st : state) : string :=
  match evs with
  | [] => EmptyString
  | (env, ev) :: rest =>
      match ev with
      | PtyData p data =>
          match ptys st !! p with
          | Some (_, r') => if Nat.eqb r' r then data else EmptyString
          | None => EmptyString
          end
      | _ => EmptyString
      end +:+ written_to r rest (final (step env ev st))
  end.

(** The object behind [r] exists. *)
Definition allocated (st : state) (r : sref) : Prop := r < length (heap st).

(** Every reference held by the table or by the callbacks of a pty
    handle is to an object that exists. *)
Definition wf (st : state) : Prop :=
  Forall (fun x => allocated st (snd x)) (sessions st)
  /\ Forall (fun x => allocated st (snd x)) (ptys st).

(** [m] keeps the state well formed and the objects [R] in existence. *)
Definition Safe {A} (R : list sref) (m : M A) : Prop :=
  forall st, wf st -> Forall (allocated st) R ->
    wf (final (m st)) /\ Forall (allocated (final (m st))) R.

(** [m] preserves the property [P] of states. *)
Definition Pres {A} (P : state -> Prop) (m : M A) : Prop :=
  forall st, P st -> P (final (m st)).

(** No id occurs twice in the table (a [Map] has one entry per key). *)
Definition unique_ids (st : state) : Prop := NoDup (map fst (sessions st)).

(** A session object is running exactly when it has a handle. *)
Definition handle_iff_running (s : session) : Prop :=
  status s = Running <-> is_some (pty s) = true.

Definition consistent (st : state) : Prop := Forall handle_iff_running (heap st).

(** The states the server can be in: after startup on some sessions
    directory, and some events. *)
Definition reachable (st : state) : Prop :=
  exists env files evs,
    st = fst (run evs (final (loadSessions env files initial_state))).


(** The connection objects after a heartbeat over [cs]. *)
Definition marked (cs : list conn) (l : list wsobj) : list wsobj :=
  foldl (fun l c => alter (set_isAlive false) c l) l cs.

(** [wss.clients] is a set of connections that exist. *)
Definition registered_once (st : state) : Prop :=
  NoDup (wss_clients st)
  /\ Forall (fun c : conn => c < length (conns st)) (wss_clients st).

(** The connection [ws] has not been heard of since the last
    heartbeat. *)
Definition not_alive (ws : conn) (st : state) : Prop :=
  exists w, conns st !! ws = Some w /\ isAlive w = false.

(** The kill of a handle, when there is one. *)
Definition kill_of (p : option ptyref) : list effect :=
  match p with
  | Some p => [PtyKill p]
  | None => []
  end.

(** What the shutdown loop does for one entry of the table, read in the
    state [st] before the loop. *)
Definition shutdown_entry (env : Env) (st : state) (x : string * sref) : list effect :=
  kill_of (pty (deref (snd x) st))
  ++ [WriteRecord
        (mkRecord (fst x) (name (deref (snd x) st)) (Some (buffer (deref (snd x) st)))
           (if socket_exists env (fst x) then "detached" else "terminated")
           (createdAt (deref (snd x) st)))].

(** The session objects with their statuses blanked. *)
Definition but_status (h : list session) : list session :=
  map (set_status Detached) h.

(** The records among the effects, in the order they are written. *)
Fixpoint records_written (es : list effect) : list record :=
  match es with
  | [] => []
  | WriteRecord d :: es' => d :: records_written es'
  | _ :: es' => records_written es'
  end.

(** The file [saveSession] writes a record to, as the listing of the
    sessions directory gives it back at startup. *)
Definition record_file (d : record) : string * option record :=
  (r_id d +:+ ".json", Some d).

(** The record of an entry of the table. *)
Definition record_of (st : state) (x : string * sref) : record :=
  mkRecord (fst x) (name (deref (snd x) st)) (Some (buffer (deref (snd x) st)))
    (status_str (status (deref (snd x) st))) (createdAt (deref (snd x) st)).

(** The id of the record in a file of the listing. *)
Definition file_id (f : string * option record) : string :=
  match snd f with
  | Some d => r_id d
  | None => EmptyString
  end.

(** * A scenario

    Concrete worlds and states, on which the properties are tried. *)

(** The world of a small scenario: the random source yields the id
    [k3j9x2ab], dtach starts, socket files are present, sockets are
    open, no PIN is configured. *)
Definition env_ok : Env :=
  mkEnv "0.k3j9x2abq7" 1700000000000 true (fun _ => true) (fun _ => true)
    (fun _ => true) None (fun pin => pin).

(** A client connects, creates a session, attaches to it, and the shell
    prints [abc]. *)
Definition st_abc : state :=
  fst (run [(env_ok, Connection);
            (env_ok, Message 0 (Some (MCreate None)));
            (env_ok, Message 0 (Some (MAttach "k3j9x2ab")));
            (env_ok, PtyData 0 "abc")] initial_state).

(** The same world a little later: the socket files are gone, and the
    random source repeats itself. *)
Definition env_socket_gone : Env :=
  mkEnv "0.k3j9x2abq7" 1700000000900 true (fun _ => false) (fun _ => false)
    (fun _ => true) None (fun pin => pin).

(** A client connects, creates a session and terminates it. *)
Definition st_terminated : state :=
  fst (run [(env_ok, Connection);
            (env_ok, Message 0 (Some (MCreate None)));
            (env_ok, Message 0 (Some (MTerminate "k3j9x2ab")))] initial_state).

(** The session of the scenario before any output. *)
Definition st_attached : state :=
  fst (run [(env_ok, Connection);
            (env_ok, Message 0 (Some (MCreate None)));
            (env_ok, Message 0 (Some (MAttach "k3j9x2ab")))] initial_state).

(** The session of the scenario, terminated after it printed [abc]. *)
Definition st_abc_terminated : state :=
  final (step env_ok (Message 0 (Some (MTerminate "k3j9x2ab"))) st_abc).

(** A world in which a PIN is configured, and a connection made in it. *)
Definition env_pin : Env :=
  mkEnv "0.k3j9x2abq7" 1700000000000 true (fun _ => true) (fun _ => true)
    (fun _ => true) (Some (mkPin "hash-of-4321" 4)) (fun pin => "hash-of-" +:+ pin).

Definition st_pin : state := final (on_connection env_pin initial_state).

(** A sessions directory: a stray file, the record of a session that was
    detached when it was written, the record of a terminated session. *)
Definition record_detached : record :=
  mkRecord "k3j9x2ab" "Session 1" (Some "abc") "detached" 1700000000000.

Definition record_terminated : record :=
  mkRecord "zz4411aa" "Session 2" None "terminated" 1700000000100.

(** The connection and the session of the scenario, as they are in
    [st_abc]. *)
Definition ws_abc : wsobj := mkWs true (Some "k3j9x2ab") true.

Definition session_abc : session :=
  mkSession (Some 0) "abc" Running "Session 1" 1700000000000 [0].

(** A second answer of the random source, a little later. *)
Definition env_second : Env :=
  mkEnv "0.zz4411aaq7" 1700000000100 true (fun _ => true) (fun _ => true)
    (fun _ => true) None (fun pin => pin).

(** The client of the scenario creates a second session, named [logs],
    while attached to the first. *)
Definition st_two : state :=
  fst (run [(env_second, Message 0 (Some (MCreate (Some "logs"))))] st_abc).

(** The client has terminated the second session. *)
Definition st_two_terminated : state :=
  fst (run [(env_ok, Message 0 (Some (MTerminate "zz4411aa")))] st_two).

(** A second client has connected and has not sent anything. *)
Definition st_two_clients : state :=
  fst (run [(env_ok, Connection)] st_abc).

(** After a heartbeat, the first client has sent a [ping] and the second
    has not. *)
Definition st_one_silent : state :=
  final (on_message env_ok 0 (Some MPing) (final (heartbeat st_two_clients))).

(** A world in which the socket file of the first session is there and
    no other. *)
Definition env_one_socket : Env :=
  mkEnv "0.k3j9x2abq7" 1700000000900 true (fun id => String.eqb id "k3j9x2ab")
    (fun id => String.eqb id "k3j9x2ab") (fun _ => true) None (fun pin => pin).

(** A world in which dtach does not start. *)
Definition env_dtach_fails : Env :=
  mkEnv "0.zz4411aaq7" 1700000000500 false (fun _ => true) (fun _ => true)
    (fun _ => true) None (fun pin => pin).

(** The sessions directory after the periodic save of the two sessions,
    listed in the other order. *)
Definition files_two : list (string * option record) :=
  [("zz4411aa.json",
    Some (mkRecord "zz4411aa" "logs" (Some EmptyString) "terminated" 1700000000100));
   ("k3j9x2ab.json",
    Some (mkRecord "k3j9x2ab" "Session 1" (Some "abc") "running" 1700000000000))].

(** * Properties *)

(** ** Facts about JavaScript strings *)

Module JsStringFacts.
Import JsString.

Lemma append_nil b : EmptyString +:+ b = b.
Proof. reflexivity. Qed.

Lemma append_cons c a b : String c a +:+ b = String c (a +:+ b).
Proof. reflexivity. Qed.

Lemma append_empty_r s : s +:+ EmptyString = s.
Proof.
  induction s as [|c s IH]; [reflexivity|].
  now rewrite append_cons, IH.
Qed.

Lemma append_assoc a b c : (a +:+ b) +:+ c = a +:+ (b +:+ c).
Proof.
  induction a as [|x a IH]; [reflexivity|].
  now rewrite !append_cons, IH.
Qed.

Lemma length_append a b :
  String.length (a +:+ b) = String.length a + String.length b.
Proof.
  induction a as [|x a IH]; [reflexivity|].
  rewrite append_cons. simpl. now rewrite IH.
Qed.

Lemma drop_0 s : drop 0 s = s.
Proof. now destruct s. Qed.

Lemma drop_empty n : drop n EmptyString = EmptyString.
Proof. now destruct n. Qed.

Lemma length_drop n s : String.length (drop n s) = String.length s - n.
Proof.
  revert n; induction s as [|c s IH]; intros [|n]; simpl; try reflexivity.
  apply IH.
Qed.

Lemma drop_drop n m s : drop n (drop m s) = drop (m + n) s.
Proof.
  revert s; induction m as [|m IH]; intros s; simpl.
  - reflexivity.
  - destruct s as [|c s]; [apply drop_empty | apply IH].
Qed.

Lemma drop_append_le n a b :
  n <= String.length a -> drop n (a +:+ b) = drop n a +:+ b.
Proof.
  revert a; induction n as [|n IH]; intros a Hn.
  - now rewrite !drop_0.
  - destruct a as [|c a]; simpl in *; [lia |].
    rewrite ?append_cons. simpl. apply IH; lia.
Qed.

Lemma drop_all n s : String.length s <= n -> drop n s = EmptyString.
Proof.
  revert n; induction s as [|c s IH]; intros n Hn.
  - apply drop_empty.
  - destruct n as [|n]; simpl in *; [lia | apply IH; lia].
Qed.

Lemma last_chars_short n s : String.length s <= n -> last_chars n s = s.
Proof.
  intros H. unfold last_chars.
  replace (String.length s - n) with 0 by lia. apply drop_0.
Qed.

Lemma length_last_chars n s : String.length (last_chars n s) <= n.
Proof. unfold last_chars. rewrite length_drop. lia. Qed.

Lemma length_last_chars_exact n s :
  n <= String.length s -> String.length (last_chars n s) = n.
Proof. intros H. unfold last_chars. rewrite length_drop. lia. Qed.

(** Keeping the last [n] units commutes with appending more output:
    the units already dropped never come back into the window. *)
Lemma last_chars_absorb n w d :
  last_chars n (last_chars n w +:+ d) = last_chars n (w +:+ d).
Proof.
  destruct (Nat.le_gt_cases (String.length w) n) as [Hle|Hgt].
  - now rewrite (last_chars_short n w).
  - unfold last_chars at 1 3. rewrite !length_append.
    rewrite length_last_chars_exact by lia.
    unfold last_chars.
    replace (String.length w + String.length d - n)
      with ((String.length w - n) + String.length d) by lia.
    rewrite <- drop_drop.
    rewrite (drop_append_le (String.length w - n) w d) by lia.
    f_equal. lia.
Qed.

End JsStringFacts.

(** ** Running the monad *)

Lemma bind_run {A B} (m : M A) (f : A -> M B) st a st1 e1 :
  m st = (a, st1, e1) ->
  bind m f st = (result (f a st1), final (f a st1), e1 ++ effects (f a st1)).
Proof.
  intros H. unfold bind, result, final, effects. rewrite H.
  now destruct (f a st1) as [[b st2] e2].
Qed.

Lemma run_eta {A} (x : A * state * list effect) :
  x = (result x, final x, effects x).
Proof. now destruct x as [[a st] e]. Qed.

Lemma forEach_send env m l st :
  forEach l (send_if_open env m) st = (tt, st, sends env m l).
Proof.
  induction l as [|c l IH]; [reflexivity|].
  simpl. unfold bind. unfold send_if_open at 1. unfold when, emit, ret.
  destruct (ready_open env c); now rewrite IH.
Qed.

Lemma saveSession_run sessionId st :
  saveSession sessionId st = (tt, st, saved sessionId st).
Proof.
  unfold saveSession, saved, bind, gets.
  now destruct (sessions_get sessionId st).
Qed.

Lemma broadcastSessionList_run env st :
  broadcastSessionList env st
  = (tt, st, sends env (sessions_msg (getSessionList st)) (wss_clients st)).
Proof.
  unfold broadcastSessionList, bind, gets. now rewrite forEach_send.
Qed.

Lemma ws_of_lookup st (c : conn) w : conns st !! c = Some w -> ws_of c st = w.
Proof. intros H. unfold ws_of. now apply list_lookup_total_correct. Qed.

Lemma deref_lookup st (r : sref) s : heap st !! r = Some s -> deref r st = s.
Proof. intros H. unfold deref. now apply list_lookup_total_correct. Qed.

(** ** Unknown session ids *)

Lemma terminateSession_unknown env sessionId st :
  sessions_get sessionId st = None ->
  terminateSession env sessionId st = (false, st, []).
Proof. intros H. unfold terminateSession, bind, gets. now rewrite H. Qed.

Lemma reactivateSession_unknown env sessionId st :
  sessions_get sessionId st = None ->
  reactivateSession env sessionId st = (false, st, []).
Proof. intros H. unfold reactivateSession, bind, gets. now rewrite H. Qed.

Lemma deleteSession_unknown env sessionId st :
  sessions_get sessionId st = None ->
  deleteSession env sessionId st = (false, st, []).
Proof. intros H. unfold deleteSession, bind, gets. now rewrite H. Qed.

(** C10. For a session id that is not in the session table, the
    [terminate], [reactivate] and [delete] messages of an authenticated
    client do nothing: [terminateSession], [reactivateSession] and
    [deleteSession] return [false], the state (and so the table) is
    unchanged, and no effect is issued: no reply to the client and no
    session-list broadcast. *)
Theorem unknown_id_silent_noop env st (ws : conn) w sessionId :
  conns st !! ws = Some w ->
  isAuthenticated w = true ->
  sessions_get sessionId st = None ->
  result (terminateSession env sessionId st) = false
  /\ result (reactivateSession env sessionId st) = false
  /\ result (deleteSession env sessionId st) = false
  /\ on_message env ws (Some (MTerminate sessionId)) st = (tt, st, [])
  /\ on_message env ws (Some (MReactivate sessionId)) st = (tt, st, [])
  /\ on_message env ws (Some (MDelete sessionId)) st = (tt, st, []).
Proof.
  intros Hw Hauth Hnone.
  rewrite terminateSession_unknown, reactivateSession_unknown,
    deleteSession_unknown by assumption.
  repeat split; unfold on_message, dispatch, bind, gets;
    rewrite (ws_of_lookup _ _ _ Hw), Hauth; simpl.
  - now rewrite terminateSession_unknown.
  - now rewrite reactivateSession_unknown.
  - now rewrite deleteSession_unknown.
Qed.

(** ** The authentication gate *)

(** A connection accepted while a PIN is configured starts out
    unauthenticated. *)
Lemma on_connection_with_pin env st pinConfig :
  getPinConfig env = Some pinConfig ->
  let r := on_connection env st in
  conns (final r) !! result r = Some (mkWs true None false)
  /\ effects r = [Send (result r) (auth_required (pin_length pinConfig))].
Proof.
  intros Hpin. unfold on_connection, bind, gets, modify, emit, ret.
  rewrite Hpin. unfold result, final, effects. simpl. split; [|reflexivity].
  rewrite lookup_app_r by lia. now rewrite Nat.sub_diag.
Qed.

(** C5. On a connection that has not authenticated (which is how a
    connection starts when a PIN is configured), every parsed message
    whose type is not [auth] is answered with the error message
    [Not authenticated] and nothing else happens: the state, hence the
    session table and every client set, is unchanged, and no other
    effect is issued. *)
Theorem unauthenticated_rejected env st (ws : conn) w msg :
  conns st !! ws = Some w ->
  isAuthenticated w = false ->
  is_auth msg = false ->
  on_message env ws (Some msg) st
  = (tt, st, [Send ws (error "Not authenticated")]).
Proof.
  intros Hw Hauth Hmsg.
  destruct msg; try discriminate Hmsg;
    unfold on_message, bind, gets, emit;
    now rewrite (ws_of_lookup _ _ _ Hw), Hauth.
Qed.

(** ** The output buffer *)

Lemma MAX_BUFFER_SIZE_pos : MAX_BUFFER_SIZE <> 0.
Proof. unfold MAX_BUFFER_SIZE. lia. Qed.

(** One output event leaves the last [MAX_BUFFER_SIZE] units of the old
    buffer followed by the new data. *)
Lemma appendOutput_last_chars buffer data :
  appendOutput buffer data
  = JsString.last_chars MAX_BUFFER_SIZE (buffer +:+ data).
Proof.
  unfold appendOutput, JsString.slice_last.
  destruct (Nat.ltb_spec MAX_BUFFER_SIZE (String.length (buffer +:+ data))) as [Hlt|Hge].
  - destruct (Nat.eqb_spec MAX_BUFFER_SIZE 0) as [H0|_]; [|reflexivity].
    now destruct (MAX_BUFFER_SIZE_pos H0).
  - symmetry. now apply JsStringFacts.last_chars_short.
Qed.

Lemma onData_run env sessionId session data st :
  let st' :=
    with_heap (alter (fun s => set_buffer (appendOutput (buffer s) data) s) session) st in
  onData env sessionId session data st
  = (tt, st', sends env (output sessionId data) (clients (deref session st'))).
Proof.
  unfold onData, bind, mutate, modify, gets. simpl.
  now rewrite forEach_send.
Qed.

Lemma run_cons env ev rest st :
  run ((env, ev) :: rest) st
  = (fst (run rest (final (step env ev st))),
     effects (step env ev st) ++ snd (run rest (final (step env ev st)))).
Proof.
  simpl. destruct (step env ev st) as [[u st1] e1]. cbn [final effects fst snd].
  now destruct (run rest st1).
Qed.

Lemma step_PtyData env p data st sessionId session :
  ptys st !! p = Some (sessionId, session) ->
  step env (PtyData p data) st = onData env sessionId session data st.
Proof.
  intros Hp. cbn [step]. unfold bind, gets. rewrite Hp.
  now destruct (onData env sessionId session data st) as [[u st1] e1].
Qed.

Lemma step_PtyExit env p st sessionId session :
  ptys st !! p = Some (sessionId, session) ->
  step env (PtyExit p) st = onExit env sessionId session st.
Proof.
  intros Hp. cbn [step]. unfold bind, gets. rewrite Hp.
  now destruct (onExit env sessionId session st) as [[u st1] e1].
Qed.

(** C3. Take a session object whose buffer holds the last
    [MAX_BUFFER_SIZE] characters of what has been written to it so far
    (nothing, for a session just created). After any sequence of output
    data events delivered to the output callback of its pty handle, the
    buffer has at most [MAX_BUFFER_SIZE] characters and is the suffix of
    that length of everything written, old and new. *)
Theorem outputBuffer_is_bounded_suffix st (p : ptyref) sessionId (session : sref)
    s written ds :
  ptys st !! p = Some (sessionId, session) ->
  heap st !! session = Some s ->
  buffer s = JsString.last_chars MAX_BUFFER_SIZE written ->
  let st' := fst (run (data_events p ds) st) in
  String.length (buffer (deref session st')) <= MAX_BUFFER_SIZE
  /\ buffer (deref session st')
     = JsString.last_chars MAX_BUFFER_SIZE
         (written +:+ JsString.concat_all (map snd ds)).
Proof.
  revert st s written.
  induction ds as [|[env data] ds IH]; intros st s written Hp Hs Hb.
  - cbn [data_events map run fst JsString.concat_all foldr].
    rewrite (deref_lookup _ _ _ Hs), JsStringFacts.append_empty_r, Hb.
    split; [apply JsStringFacts.length_last_chars | reflexivity].
  - cbn [data_events map]. rewrite run_cons. cbn [fst snd JsString.concat_all foldr].
    rewrite (step_PtyData _ _ _ _ _ _ Hp), onData_run. cbn [final fst snd].
    rewrite <- JsStringFacts.append_assoc.
    apply (IH _ (set_buffer (appendOutput (buffer s) data) s)).
    + exact Hp.
    + cbn [heap with_heap]. now rewrite list_lookup_alter_eq, Hs.
    + cbn [buffer set_buffer]. rewrite appendOutput_last_chars, Hb.
      apply JsStringFacts.last_chars_absorb.
Qed.

(** ** What only the output callback changes

    No handler but [onData] assigns to a buffer, no handler removes a
    session object or a pty handle. *)

Lemma keeps_buffers_refl st : keeps_buffers st st.
Proof. split; eauto. Qed.

Lemma keeps_buffers_trans st1 st2 st3 :
  keeps_buffers st1 st2 -> keeps_buffers st2 st3 -> keeps_buffers st1 st3.
Proof.
  intros [H1 P1] [H2 P2]. split; [|now auto].
  intros r s Hs. destruct (H1 r s Hs) as (s' & Hs' & Hb).
  destruct (H2 r s' Hs') as (s'' & Hs'' & Hb'). exists s''. split; congruence.
Qed.

Lemma keeps_same_heap st st' :
  heap st' = heap st -> ptys st' = ptys st -> keeps_buffers st st'.
Proof. intros Hh Hp. split; rewrite ?Hh, ?Hp; eauto. Qed.

Lemma final_bind {A B} (m : M A) (f : A -> M B) st :
  final (bind m f st) = final (f (result (m st)) (final (m st))).
Proof.
  unfold bind, final, result. destruct (m st) as [[a st1] e1]. cbn [fst snd].
  now destruct (f a st1) as [[b st2] e2].
Qed.

Lemma Keeps_bind {A B} (m : M A) (f : A -> M B) :
  Keeps m -> (forall a, Keeps (f a)) -> Keeps (bind m f).
Proof.
  intros Hm Hf st. rewrite final_bind.
  eapply keeps_buffers_trans; [apply Hm | apply Hf].
Qed.

Lemma Keeps_ret {A} (a : A) : Keeps (ret a).
Proof. intros st. apply keeps_buffers_refl. Qed.

Lemma Keeps_gets {A} (f : state -> A) : Keeps (gets f).
Proof. intros st. apply keeps_buffers_refl. Qed.

Lemma Keeps_emit e : Keeps (emit e).
Proof. intros st. apply keeps_buffers_refl. Qed.

Lemma Keeps_mutate (r : sref) f :
  (forall s, buffer (f s) = buffer s) -> Keeps (mutate r f).
Proof.
  intros Hf st. split; [|now auto].
  intros r' s Hs. cbn. rewrite list_lookup_alter. case_decide as Heq.
  - subst r'. rewrite Hs. simpl. eauto.
  - eauto.
Qed.

Lemma Keeps_mutate_ws (c : conn) f : Keeps (mutate_ws c f).
Proof. intros st. now apply keeps_same_heap. Qed.

Lemma Keeps_alloc s : Keeps (alloc s).
Proof.
  intros st. split; [|now auto].
  intros r s0 Hs. exists s0. split; [|reflexivity]. cbn. now apply lookup_app_l_Some.
Qed.

Lemma Keeps_with_sessions f : Keeps (modify (with_sessions f)).
Proof. intros st. now apply keeps_same_heap. Qed.

Lemma Keeps_with_conns f : Keeps (modify (with_conns f)).
Proof. intros st. now apply keeps_same_heap. Qed.

Lemma Keeps_with_wss_clients f : Keeps (modify (with_wss_clients f)).
Proof. intros st. now apply keeps_same_heap. Qed.

Lemma Keeps_new_pty x : Keeps (modify (with_ptys (fun l => l ++ [x]))).
Proof.
  intros st. split; [now eauto|].
  intros p y Hp. cbn. now apply lookup_app_l_Some.
Qed.

Lemma Keeps_when b m : Keeps m -> Keeps (when b m).
Proof. intros Hm. destruct b; [exact Hm | apply Keeps_ret]. Qed.

Lemma Keeps_forEach {A} (l : list A) f :
  (forall x, Keeps (f x)) -> Keeps (forEach l f).
Proof.
  intros Hf. induction l as [|x l IH]; cbn [forEach]; [apply Keeps_ret|].
  apply Keeps_bind; [apply Hf | intros _; exact IH].
Qed.

Ltac keeps_step :=
  first
    [ apply Keeps_bind; [|intros ?]
    | apply Keeps_ret | apply Keeps_gets | apply Keeps_emit
    | apply Keeps_when
    | apply Keeps_forEach; intros ?
    | apply Keeps_mutate; intros []; reflexivity
    | apply Keeps_mutate_ws | apply Keeps_alloc
    | apply Keeps_with_sessions | apply Keeps_with_conns
    | apply Keeps_with_wss_clients | apply Keeps_new_pty
    | match goal with
      | |- Keeps (match ?x with _ => _ end) => destruct x
      end
    | assumption ].

Ltac keeps := cbv zeta; repeat keeps_step.

Lemma Keeps_saveSession sessionId : Keeps (saveSession sessionId).
Proof. unfold saveSession. keeps. Qed.

Lemma Keeps_broadcastSessionList env : Keeps (broadcastSessionList env).
Proof. unfold broadcastSessionList. keeps. Qed.

Lemma Keeps_killDtachSocket env sessionId : Keeps (killDtachSocket env sessionId).
Proof. unfold killDtachSocket. keeps. Qed.

Lemma Keeps_attachToDtach env sessionId session :
  Keeps (attachToDtach env sessionId session).
Proof. unfold attachToDtach. keeps. Qed.

Create HintDb keeps.

#[local] Hint Resolve Keeps_saveSession Keeps_broadcastSessionList
  Keeps_killDtachSocket Keeps_attachToDtach : keeps.

Ltac keeps_all := keeps; auto with keeps.

Lemma Keeps_dispatch env ws msg : Keeps (dispatch env ws msg).
Proof.
  destruct msg; cbn [dispatch];
    unfold handle_attach, handle_detach, handle_input, handle_resize, handle_rename;
    keeps_all.
Qed.

Lemma Keeps_on_message env ws message : Keeps (on_message env ws message).
Proof.
  destruct message as [msg|]; [|apply Keeps_ret].
  destruct msg; cbn [on_message]; unfold handle_auth; keeps_all;
    apply Keeps_dispatch.
Qed.

Lemma Keeps_onExit env sessionId session : Keeps (onExit env sessionId session).
Proof. unfold onExit. keeps_all. Qed.

(** Every event other than an output event keeps the buffers. *)
Lemma Keeps_step env ev :
  match ev with PtyData _ _ => True | _ => Keeps (step env ev) end.
Proof.
  destruct ev; [| | | exact I | |]; cbn [step].
  - unfold on_connection. keeps_all.
  - apply Keeps_on_message.
  - unfold on_close. keeps_all.
  - keeps_all.
  - unfold save_all. keeps_all.
Qed.

(** X22. The buffer of a session object over any run: whatever else happens
    to the session in between (clients coming and going, terminate,
    reactivate, handles exiting and new ones being spawned), after the
    run the buffer is the suffix of length [MAX_BUFFER_SIZE] of what had
    been written before the run followed by the output delivered during
    it. *)
Lemma buffer_is_suffix_over_any_run evs st (r : sref) s written :
  heap st !! r = Some s ->
  buffer s = JsString.last_chars MAX_BUFFER_SIZE written ->
  exists s',
    heap (fst (run evs st)) !! r = Some s'
    /\ buffer s'
       = JsString.last_chars MAX_BUFFER_SIZE (written +:+ written_to r evs st)
    /\ String.length (buffer s') <= MAX_BUFFER_SIZE.
Proof.
  revert st s written.
  induction evs as [|[env ev] evs IH]; intros st s written Hs Hb.
  - exists s. cbn [run fst written_to]. rewrite JsStringFacts.append_empty_r, Hb.
    repeat split; [assumption | apply JsStringFacts.length_last_chars].
  - rewrite run_cons. cbn [fst written_to].
    rewrite <- JsStringFacts.append_assoc.
    destruct ev as [|ws message|ws|p data|p|].
    4:{ cbn [step]. unfold bind at 1 2, gets at 1 2.
        destruct (ptys st !! p) as [[sessionId r']|] eqn:Hp.
        - pose proof (onData_run env sessionId r' data st) as Hrun.
          cbv zeta in Hrun. rewrite Hrun. cbn [final fst snd].
          destruct (Nat.eqb_spec r' r) as [->|Hne].
          + apply (IH _ (set_buffer (appendOutput (buffer s) data) s)).
            * cbn [heap with_heap]. now rewrite list_lookup_alter_eq, Hs.
            * cbn [buffer set_buffer]. rewrite appendOutput_last_chars, Hb.
              apply JsStringFacts.last_chars_absorb.
          + rewrite JsStringFacts.append_empty_r. apply (IH _ s).
            * cbn [heap with_heap]. now rewrite list_lookup_alter_ne.
            * exact Hb.
        - cbn [final fst snd]. rewrite JsStringFacts.append_empty_r.
          now apply (IH _ s). }
    all: rewrite JsStringFacts.append_empty_r.
    all: match goal with |- context [step ?en ?e ?s0] =>
           pose proof (Keeps_step en e s0) as [Hk _] end.
    all: destruct (Hk r s Hs) as (s1 & Hs1 & Hb1).
    all: apply (IH _ s1); [exact Hs1 | congruence].
Qed.

(** ** Well-formed states

    References are never dangling: the table and the pty callbacks only
    hold references to objects that exist. *)

Lemma JsMap_get_In {V} k (v : V) m : JsMap.get k m = Some v -> In (k, v) m.
Proof.
  induction m as [|[k' v'] m IH]; simpl; [discriminate|].
  destruct (String.eqb_spec k k') as [->|Hne].
  - intros [= ->]. now left.
  - intros H. right. now apply IH.
Qed.

Lemma JsMap_set_In {V} k (v : V) m x :
  In x (JsMap.set k v m) -> x = (k, v) \/ In x m.
Proof.
  induction m as [|[k' v'] m IH]; simpl.
  - intros [<-|[]]. now left.
  - destruct (String.eqb k k'); simpl.
    + intros [<-|H]; auto.
    + intros [<-|H]; auto. destruct (IH H); auto.
Qed.

Lemma JsMap_delete_In {V} k (m : list (string * V)) x :
  In x (JsMap.delete k m) -> In x m.
Proof.
  induction m as [|[k' v'] m IH]; simpl; [tauto|].
  destruct (String.eqb k k'); simpl; [auto|].
  intros [<-|H]; auto.
Qed.

Lemma wf_grow st st' :
  length (heap st) <= length (heap st') ->
  (forall x, In x (sessions st') -> In x (sessions st) \/ allocated st' (snd x)) ->
  (forall x, In x (ptys st') -> In x (ptys st) \/ allocated st' (snd x)) ->
  forall R, wf st -> Forall (allocated st) R ->
  wf st' /\ Forall (allocated st') R.
Proof.
  intros Hlen Hs Hp R [Ws Wp] HR. unfold allocated in *.
  rewrite Forall_forall in Ws, Wp.
  repeat split.
  - apply Forall_forall. intros x Hx. apply list_elem_of_In in Hx.
    destruct (Hs x Hx) as [H|H]; [|exact H].
    apply list_elem_of_In in H. specialize (Ws x H). unfold allocated. lia.
  - apply Forall_forall. intros x Hx. apply list_elem_of_In in Hx.
    destruct (Hp x Hx) as [H|H]; [|exact H].
    apply list_elem_of_In in H. specialize (Wp x H). unfold allocated. lia.
  - eapply Forall_impl; [exact HR|]. intros r Hr. simpl in *. lia.
Qed.

Lemma Safe_bind {A B} R (m : M A) (f : A -> M B) :
  Safe R m -> (forall a, Safe R (f a)) -> Safe R (bind m f).
Proof.
  intros Hm Hf st W HR. rewrite final_bind.
  destruct (Hm st W HR) as [W1 HR1]. now apply Hf.
Qed.

Lemma Safe_unchanged {A} R (m : M A) :
  (forall st, final (m st) = st) -> Safe R m.
Proof. intros H st W HR. rewrite H. now split. Qed.

Lemma Safe_ret {A} R (a : A) : Safe R (ret a).
Proof. now apply Safe_unchanged. Qed.

Lemma Safe_gets {A} R (f : state -> A) : Safe R (gets f).
Proof. now apply Safe_unchanged. Qed.

Lemma Safe_emit R e : Safe R (emit e).
Proof. now apply Safe_unchanged. Qed.

(** A reference read from the table is to an object that exists. *)
Lemma Safe_lookup {B} R sessionId (k : option sref -> M B) :
  Safe R (k None) ->
  (forall r, Safe (r :: R) (k (Some r))) ->
  Safe R (bind (gets (sessions_get sessionId)) k).
Proof.
  intros Hnone Hsome st W HR. rewrite final_bind. cbn [gets result final fst snd].
  destruct (sessions_get sessionId st) as [r|] eqn:Hr; [|now apply Hnone].
  destruct (Hsome r st W) as [W1 HR1].
  - constructor; [|exact HR].
    destruct W as [Ws _]. rewrite Forall_forall in Ws.
    apply (Ws (sessionId, r)), list_elem_of_In. now apply JsMap_get_In.
  - split; [exact W1 | now inversion HR1].
Qed.

(** So is a reference just allocated. *)
Lemma Safe_alloc {B} R s (k : sref -> M B) :
  (forall r, Safe (r :: R) (k r)) -> Safe R (bind (alloc s) k).
Proof.
  intros Hk st W HR. rewrite final_bind. cbn [alloc result final fst snd].
  destruct (wf_grow st (with_heap (fun h => h ++ [s]) st)) with (R := R)
    as [W1 HR1]; try assumption.
  - cbn. rewrite length_app. lia.
  - now left.
  - now left.
  - destruct (Hk (length (heap st)) _ W1) as [W2 HR2].
    + constructor; [|exact HR1]. unfold allocated. cbn. rewrite length_app. simpl. lia.
    + split; [exact W2 | now inversion HR2].
Qed.

Lemma Safe_mutate R (r : sref) f : Safe R (mutate r f).
Proof.
  intros st W HR. apply (wf_grow st); try assumption.
  - cbn. now rewrite length_alter.
  - now left.
  - now left.
Qed.

Lemma Safe_mutate_ws R (c : conn) f : Safe R (mutate_ws c f).
Proof.
  intros st W HR. apply (wf_grow st); try assumption; cbn; auto.
Qed.

Lemma Safe_with_wss_clients R f : Safe R (modify (with_wss_clients f)).
Proof.
  intros st W HR. apply (wf_grow st); try assumption; cbn; auto.
Qed.

Lemma Safe_with_conns R f : Safe R (modify (with_conns f)).
Proof.
  intros st W HR. apply (wf_grow st); try assumption; cbn; auto.
Qed.

Lemma Safe_set R sessionId (r : sref) :
  In r R -> Safe R (modify (with_sessions (JsMap.set sessionId r))).
Proof.
  intros Hin st W HR. apply (wf_grow st); try assumption; cbn; auto.
  intros x Hx. destruct (JsMap_set_In _ _ _ _ Hx) as [->|H]; [right|now left].
  rewrite Forall_forall in HR. apply HR, list_elem_of_In, Hin.
Qed.

Lemma Safe_delete R sessionId :
  Safe R (modify (with_sessions (JsMap.delete sessionId))).
Proof.
  intros st W HR. apply (wf_grow st); try assumption; cbn; auto.
  intros x Hx. left. eapply JsMap_delete_In, Hx.
Qed.

Lemma Safe_new_pty R sessionId (r : sref) :
  In r R -> Safe R (modify (with_ptys (fun l => l ++ [(sessionId, r)]))).
Proof.
  intros Hin st W HR. apply (wf_grow st); try assumption; cbn; auto.
  intros x Hx. apply in_app_or in Hx as [H|[<-|[]]]; [now left|right].
  rewrite Forall_forall in HR. apply HR, list_elem_of_In, Hin.
Qed.

Lemma Safe_when R b m : Safe R m -> Safe R (when b m).
Proof. intros Hm. destruct b; [exact Hm | apply Safe_ret]. Qed.

Lemma Safe_forEach {A} R (l : list A) f :
  (forall x, Safe R (f x)) -> Safe R (forEach l f).
Proof.
  intros Hf. induction l as [|x l IH]; cbn [forEach]; [apply Safe_ret|].
  apply Safe_bind; [apply Hf | intros _; exact IH].
Qed.

Create HintDb safe.

#[local] Hint Extern 1 (In _ _) => simpl; tauto : safe.

Ltac safe_step :=
  first
    [ solve [auto with safe nocore]
    | apply Safe_lookup; [|intros ?]
    | apply Safe_alloc; intros ?
    | apply Safe_bind; [|intros ?]
    | apply Safe_ret | apply Safe_gets | apply Safe_emit
    | apply Safe_when
    | apply Safe_forEach; intros ?
    | apply Safe_mutate | apply Safe_mutate_ws
    | apply Safe_with_conns | apply Safe_with_wss_clients
    | apply Safe_delete
    | apply Safe_set; simpl; tauto
    | apply Safe_new_pty; simpl; tauto
    | match goal with
      | |- Safe _ (match ?x with _ => _ end) => destruct x
      end ].

Ltac safe := cbv zeta; repeat safe_step.

Lemma Safe_saveSession R sessionId : Safe R (saveSession sessionId).
Proof. unfold saveSession. safe. Qed.

Lemma Safe_broadcastSessionList R env : Safe R (broadcastSessionList env).
Proof. unfold broadcastSessionList. safe. Qed.

Lemma Safe_killDtachSocket R env sessionId : Safe R (killDtachSocket env sessionId).
Proof. unfold killDtachSocket. safe. Qed.

Lemma Safe_attachToDtach R env sessionId (r : sref) :
  In r R -> Safe R (attachToDtach env sessionId r).
Proof. intros Hin. unfold attachToDtach. safe. Qed.

#[local] Hint Resolve Safe_saveSession Safe_broadcastSessionList
  Safe_killDtachSocket Safe_attachToDtach : safe.

Lemma Safe_bridge R env sessionId (r : sref) :
  In r R -> Safe R (bridge env sessionId r).
Proof. intros Hin. unfold bridge. safe. Qed.

Lemma Safe_leave_attached R ws : Safe R (leave_attached ws).
Proof. unfold leave_attached. safe. Qed.

#[local] Hint Resolve Safe_bridge Safe_leave_attached : safe.

Lemma Safe_dispatch R env ws msg : Safe R (dispatch env ws msg).
Proof.
  destruct msg; cbn [dispatch];
    unfold handle_attach, handle_detach, handle_input, handle_resize, handle_rename,
      terminateSession, reactivateSession, deleteSession, createSession,
      createDtachSession;
    safe.
Qed.

#[local] Hint Resolve Safe_dispatch : safe.

Lemma Safe_on_message R env ws message : Safe R (on_message env ws message).
Proof.
  destruct message as [msg|]; [|apply Safe_ret].
  destruct msg; cbn [on_message]; unfold handle_auth; safe.
Qed.

Lemma Safe_step env ev : Safe [] (step env ev).
Proof.
  destruct ev; cbn [step].
  - unfold on_connection. safe.
  - apply Safe_on_message.
  - unfold on_close. safe.
  - unfold onData. safe.
  - unfold onExit. safe.
  - unfold save_all. safe.
Qed.

Lemma Safe_loadSessions R env files : Safe R (loadSessions env files).
Proof.
  revert R.
  induction files as [|[file content] files IH]; intros R; cbn [loadSessions]; safe;
    apply IH.
Qed.

Lemma wf_initial_state : wf initial_state.
Proof. split; constructor. Qed.

(** Every state the server reaches is well formed: after startup on any
    sessions directory and any sequence of events, each reference in the
    table and in the callbacks of a handle is to a session object. *)
Lemma wf_reachable env files evs :
  wf (fst (run evs (final (loadSessions env files initial_state)))).
Proof.
  assert (W0 : wf (final (loadSessions env files initial_state))).
  { apply (Safe_loadSessions [] env files); [apply wf_initial_state | constructor]. }
  revert W0. generalize (final (loadSessions env files initial_state)).
  induction evs as [|[e ev] evs IH]; intros st W; [exact W|].
  rewrite run_cons. cbn [fst]. apply IH.
  now apply (Safe_step e ev st).
Qed.

(** In a well-formed state the id of a session leads to its object. *)
Lemma wf_sessions_get st sessionId (r : sref) :
  wf st -> sessions_get sessionId st = Some r -> exists s, heap st !! r = Some s.
Proof.
  intros [Ws _] Hr. apply lookup_lt_is_Some_2.
  rewrite Forall_forall in Ws.
  apply (Ws (sessionId, r)), list_elem_of_In. now apply JsMap_get_In.
Qed.

(** ** Creating a session *)

Lemma JsMap_get_set_eq {V} k (v : V) m : JsMap.get k (JsMap.set k v m) = Some v.
Proof.
  induction m as [|[k' v'] m IH]; simpl.
  - now rewrite String.eqb_refl.
  - destruct (String.eqb_spec k k') as [->|Hne]; simpl.
    + now rewrite String.eqb_refl.
    + destruct (String.eqb_spec k k'); [contradiction | exact IH].
Qed.

Lemma JsMap_get_set_ne {V} k k' (v : V) m :
  k <> k' -> JsMap.get k' (JsMap.set k v m) = JsMap.get k' m.
Proof.
  intros Hne. induction m as [|[k1 v1] m IH]; simpl.
  - destruct (String.eqb_spec k' k); [congruence | reflexivity].
  - destruct (String.eqb_spec k k1) as [->|Hk]; simpl.
    + destruct (String.eqb_spec k' k1); [congruence | reflexivity].
    + destruct (String.eqb_spec k' k1); [reflexivity | exact IH].
Qed.

(** C1 (as the code has it). [createSession] takes the id from the
    random source alone and does not look it up in the session table.
    When dtach fails to start, it returns none, leaves the state (so
    the table) as it was and writes no record: its only effect is the
    attempt to start dtach. When dtach starts, it returns the id, the
    table maps the id to a new session object (Detached, empty buffer,
    no client), every other id maps to what it mapped to before, and
    the record of the new session is written. *)
Theorem createSession_outcome env name st :
  let id := generateId env in
  let r := createSession env name st in
  if dtach_create_ok env
  then result r = Some id
       /\ sessions_get id (final r) = Some (length (heap st))
       /\ heap (final r) !! length (heap st) = Some (new_session env name st)
       /\ (forall other, other <> id ->
             sessions_get other (final r) = sessions_get other st)
       /\ effects r
          = [DtachCreate id;
             WriteRecord (mkRecord id (name_or name (default_name (JsMap.size (sessions st))))
                            (Some EmptyString) "detached" (now env))]
  else r = (None, st, [DtachCreate id]).
Proof.
  intros id r. subst r.
  unfold createSession, createDtachSession, bind, emit, ret, gets, alloc, modify.
  fold id. destruct (dtach_create_ok env); [|reflexivity].
  cbn [negb]. rewrite saveSession_run.
  unfold result, final, effects, saved, sessions_get, deref.
  cbn [fst snd sessions heap with_sessions with_heap].
  rewrite JsMap_get_set_eq.
  rewrite list_lookup_total_middle by reflexivity.
  repeat split.
  - now rewrite list_lookup_middle.
  - intros other Hne. apply JsMap_get_set_ne. congruence.
Qed.

Lemma createSession_spawn_fails env name st :
  dtach_create_ok env = false ->
  createSession env name st = (None, st, [DtachCreate (generateId env)]).
Proof.
  intros Hfail.
  unfold createSession, createDtachSession, bind, emit, ret.
  now rewrite Hfail.
Qed.

(** X24. The reply to a [create] message when dtach fails to start: an error
    to the requester, and no broadcast. *)
Lemma create_failure_reply env st (ws : conn) w name :
  conns st !! ws = Some w ->
  isAuthenticated w = true ->
  dtach_create_ok env = false ->
  on_message env ws (Some (MCreate name)) st
  = (tt, st, [DtachCreate (generateId env);
              Send ws (error "Failed to create session")]).
Proof.
  intros Hw Hauth Hfail.
  unfold on_message, dispatch, bind, gets.
  rewrite (ws_of_lookup _ _ _ Hw), Hauth. cbn [negb].
  now rewrite (createSession_spawn_fails env name st Hfail).
Qed.

(** C1, the part that fails: an id that is in the session table is
    generated again, and [createSession] hands it out a second time; the
    table entry of the terminated session is replaced by the new
    session. *)
Lemma createSession_reuses_present_id :
  sessions_get "k3j9x2ab" st_terminated = Some 0
  /\ result (createSession env_socket_gone None st_terminated) = Some "k3j9x2ab"
  /\ sessions_get "k3j9x2ab" (final (createSession env_socket_gone None st_terminated))
     = Some 1.
Proof. vm_compute. repeat split. Qed.

(** ** Assignments to a session object *)

Lemma alter_insert (f : session -> session) (r : sref) (h : list session) s :
  h !! r = Some s -> alter f r h = <[r := f s]> h.
Proof.
  intros H. rewrite list_insert_alter. apply list_alter_ext; [|reflexivity].
  intros x Hx. congruence.
Qed.

Lemma alter_after_insert (f : session -> session) (r : sref) (h : list session) x :
  r < length h -> alter f r (<[r := x]> h) = <[r := f x]> h.
Proof.
  intros H. rewrite (alter_insert f r _ x) by now apply list_lookup_insert_eq.
  apply list_insert_insert_eq.
Qed.

Lemma lookup_total_after_insert (r : sref) (h : list session) x :
  r < length h -> <[r := x]> h !!! r = x.
Proof.
  intros H. apply list_lookup_total_correct. now apply list_lookup_insert_eq.
Qed.

Lemma heap_store (r : sref) s st :
  r < length (heap st) -> heap (store r s st) !! r = Some s.
Proof. intros H. cbn. now apply list_lookup_insert_eq. Qed.

Lemma deref_store (r : sref) s st :
  r < length (heap st) -> deref r (store r s st) = s.
Proof. intros H. apply deref_lookup. now apply heap_store. Qed.

Lemma set_pty_None_id s : pty s = None -> set_pty None s = s.
Proof. destruct s; simpl; now intros ->. Qed.

Ltac run_monad :=
  repeat (progress (unfold bind, gets, modify, mutate, mutate_ws, emit, ret, when;
                    cbn [negb andb app])).

Ltac heap_norm Hs :=
  unfold deref, with_heap, with_sessions, with_ptys, with_conns, with_wss_clients;
  cbn [heap sessions ptys conns wss_clients];
  rewrite ?(alter_insert _ _ _ _ Hs);
  rewrite ?alter_after_insert, ?lookup_total_after_insert
    by (eapply lookup_lt_Some; exact Hs).

(** ** Terminating and reactivating *)

(** What [terminateSession] does to a session that is in the table: the
    handle, if any, is killed first; then the owners of the socket are
    killed and its removal is scheduled, if the socket file is there;
    the record is written with status [terminated]; the open clients of
    the session are told. *)
Lemma terminateSession_run env sessionId st (r : sref) s :
  sessions_get sessionId st = Some r ->
  heap st !! r = Some s ->
  terminateSession env sessionId st
  = (true,
     store r (set_status Terminated (set_pty None s)) st,
     match pty s with Some p => [PtyKill p] | None => [] end
     ++ (if socket_exists env sessionId
         then [KillSocketOwners sessionId; UnlinkSocketLater sessionId] else [])
     ++ [WriteRecord (mkRecord sessionId (name s) (Some (buffer s))
                        "terminated" (createdAt s))]
     ++ sends env (terminated sessionId) (clients s)).
Proof.
  intros Hr Hs. unfold terminateSession, killDtachSocket. run_monad. rewrite Hr.
  rewrite (deref_lookup _ _ _ Hs).
  destruct (pty s) as [p|] eqn:Hpty, (socket_exists env sessionId); run_monad.
  all: rewrite saveSession_run; run_monad; rewrite forEach_send; run_monad.
  all: unfold saved, sessions_get in *; cbn [sessions with_heap]; rewrite Hr.
  all: heap_norm Hs; rewrite app_nil_r.
  all: rewrite ?(set_pty_None_id s Hpty); reflexivity.
Qed.

Lemma reactivateSession_run env sessionId st (r : sref) s :
  sessions_get sessionId st = Some r ->
  heap st !! r = Some s ->
  status s = Terminated ->
  dtach_create_ok env = true ->
  reactivateSession env sessionId st
  = (true,
     store r (set_status Detached s) st,
     [DtachCreate sessionId;
      WriteRecord (mkRecord sessionId (name s) (Some (buffer s))
                     "detached" (createdAt s))]
     ++ sends env (reactivated sessionId) (clients s)).
Proof.
  intros Hr Hs Hst Hok. unfold reactivateSession, createDtachSession. run_monad.
  rewrite Hr, (deref_lookup _ _ _ Hs), Hst, Hok. cbn [status_eqb]. run_monad.
  rewrite saveSession_run; run_monad; rewrite forEach_send; run_monad.
  unfold saved, sessions_get in *; cbn [sessions with_heap]; rewrite Hr.
  heap_norm Hs; rewrite app_nil_r. reflexivity.
Qed.

(** Once authenticated, a message that is not [auth] reaches the
    [switch]. *)
Lemma on_message_authenticated env st (ws : conn) w msg :
  conns st !! ws = Some w ->
  isAuthenticated w = true ->
  is_auth msg = false ->
  on_message env ws (Some msg) st = dispatch env ws msg st.
Proof.
  intros Hw Hauth Hmsg.
  destruct msg; try discriminate Hmsg;
    unfold on_message, bind, gets;
    rewrite (ws_of_lookup _ _ _ Hw), Hauth; cbn [negb];
    match goal with |- context [dispatch ?e ?c ?m ?s] =>
      destruct (dispatch e c m s) as [[u st'] es] end;
    now destruct u.
Qed.

Lemma dispatch_terminate env st (ws : conn) sessionId (r : sref) s :
  sessions_get sessionId st = Some r ->
  heap st !! r = Some s ->
  let st' := store r (set_status Terminated (set_pty None s)) st in
  dispatch env ws (MTerminate sessionId) st
  = (tt, st',
     effects (terminateSession env sessionId st)
     ++ sends env (sessions_msg (getSessionList st')) (wss_clients st)).
Proof.
  intros Hr Hs st'. cbn [dispatch]. unfold bind.
  rewrite (terminateSession_run _ _ _ _ _ Hr Hs). fold st'.
  unfold when. rewrite broadcastSessionList_run. reflexivity.
Qed.

Lemma dispatch_reactivate env st (ws : conn) sessionId (r : sref) s :
  sessions_get sessionId st = Some r ->
  heap st !! r = Some s ->
  status s = Terminated ->
  dtach_create_ok env = true ->
  let st' := store r (set_status Detached s) st in
  dispatch env ws (MReactivate sessionId) st
  = (tt, st',
     effects (reactivateSession env sessionId st)
     ++ sends env (sessions_msg (getSessionList st')) (wss_clients st)).
Proof.
  intros Hr Hs Hst Hok st'. cbn [dispatch]. unfold bind.
  rewrite (reactivateSession_run _ _ _ _ _ Hr Hs Hst Hok). fold st'.
  unfold when. rewrite broadcastSessionList_run. reflexivity.
Qed.

(** ** Attaching *)

Lemma sends_sessions_bridge_effect env l cs :
  Forall (fun e => bridge_effect e = true) (sends env (sessions_msg l) cs).
Proof.
  induction cs as [|c cs IH]; simpl; [constructor|].
  destruct (ready_open env c); [constructor|]; auto.
Qed.

Lemma JsSet_add_In c s : In c (JsSet.add c s).
Proof.
  unfold JsSet.add. destruct (JsSet.has c s) eqn:H.
  - unfold JsSet.has in H. apply existsb_exists in H as [x [Hx Heq]].
    apply Nat.eqb_eq in Heq. now subst.
  - apply in_or_app. right. now left.
Qed.

Lemma with_heap_same st : with_heap (fun _ => heap st) st = st.
Proof. now destruct st. Qed.

Lemma state_eta st :
  mkState (heap st) (sessions st) (ptys st) (conns st) (wss_clients st) = st.
Proof. now destruct st. Qed.

(** Leaving the previous session only changes client sets. *)
Lemma leave_attached_spec (ws : conn) st :
  exists h',
    leave_attached ws st = (tt, with_heap (fun _ => h') st, [])
    /\ forall (r : sref) s, heap st !! r = Some s ->
         exists cl, h' !! r = Some (set_clients cl s).
Proof.
  assert (Hsame : forall (r : sref) s, heap st !! r = Some s ->
            exists cl, heap st !! r = Some (set_clients cl s)).
  { intros r s Hs. exists (clients s). rewrite Hs. now destruct s. }
  unfold leave_attached. run_monad.
  destruct (attached_id (ws_of ws st)) as [prev|].
  2:{ exists (heap st). now rewrite with_heap_same. }
  destruct (sessions_get prev st) as [rp|].
  2:{ exists (heap st). now rewrite with_heap_same. }
  exists (alter (fun s => set_clients (JsSet.delete ws (clients s)) s) rp (heap st)).
  split; [reflexivity|].
  intros r s Hs. rewrite list_lookup_alter. case_decide as Heq.
  - subst rp. rewrite Hs. simpl. eauto.
  - now apply Hsame.
Qed.

Lemma status_eqb_Terminated s :
  status_eqb s Terminated = true <-> s = Terminated.
Proof. destruct s; simpl; split; congruence. Qed.

(** The bridge block changes at most the handle and the status of the
    session; a terminated session is left alone. *)
Lemma bridge_spec env sessionId (r : sref) st s :
  heap st !! r = Some s ->
  exists h' s' pre,
    bridge env sessionId r st
    = (tt, mkState h' (sessions st)
             (if is_some (pty s') && negb (is_some (pty s))
              then ptys st ++ [(sessionId, r)] else ptys st)
             (conns st) (wss_clients st), pre)
    /\ h' !! r = Some s'
    /\ name s' = name s /\ buffer s' = buffer s /\ clients s' = clients s
    /\ Forall (fun e => bridge_effect e = true) pre
    /\ (status s = Terminated -> pre = [] /\ s' = s)
    /\ (pty s = None -> status s <> Terminated ->
        socket_exists env sessionId = true ->
        socket_exists_again env sessionId = true ->
        status s' = Running)
    /\ (pty s = None -> status s <> Terminated ->
        socket_exists env sessionId = false ->
        status s' = Terminated).
Proof.
  intros Hs. unfold bridge, attachToDtach, socketExists. run_monad.
  rewrite (deref_lookup _ _ _ Hs).
  destruct (pty s) as [p|] eqn:Hpty; cbn [is_some negb andb].
  { exists (heap st), s, []. rewrite Hpty. cbn [is_some negb andb].
    rewrite state_eta. repeat split; try congruence; constructor. }
  destruct (status_eqb (status s) Terminated) eqn:Hterm; cbn [negb].
  { apply status_eqb_Terminated in Hterm.
    exists (heap st), s, []. rewrite Hpty. cbn [is_some negb andb].
    rewrite state_eta. repeat split; try congruence; constructor. }
  assert (Hnt : status s <> Terminated).
  { intros H. apply status_eqb_Terminated in H. congruence. }
  destruct (socket_exists env sessionId) eqn:Hsock.
  - destruct (socket_exists_again env sessionId) eqn:Hagain; run_monad.
    + rewrite broadcastSessionList_run. run_monad.
      exists (<[r := set_status Running (set_pty (Some (length (ptys st))) s)]> (heap st)),
        (set_status Running (set_pty (Some (length (ptys st))) s)),
        (PtySpawn (length (ptys st)) sessionId
           :: sends env (sessions_msg (getSessionList
                (mkState (<[r := set_status Running (set_pty (Some (length (ptys st))) s)]> (heap st))
                   (sessions st) (ptys st ++ [(sessionId, r)]) (conns st) (wss_clients st))))
                (wss_clients st)).
      heap_norm Hs. cbn [pty set_status set_pty is_some negb andb app].
      rewrite ?app_nil_r.
      repeat split; try congruence.
      * apply list_lookup_insert_eq. eapply lookup_lt_Some; exact Hs.
      * constructor; [reflexivity | apply sends_sessions_bridge_effect].
    + rewrite broadcastSessionList_run. run_monad.
      exists (heap st), s, (sends env (sessions_msg (getSessionList st)) (wss_clients st)).
      rewrite Hpty. cbn [is_some negb andb]. rewrite ?app_nil_r, state_eta.
      repeat split; try congruence.
      apply sends_sessions_bridge_effect.
  - rewrite saveSession_run. run_monad. rewrite broadcastSessionList_run. run_monad.
    exists (<[r := set_status Terminated s]> (heap st)), (set_status Terminated s).
    eexists. heap_norm Hs. cbn [pty set_status is_some]. rewrite Hpty.
    cbn [is_some negb andb].
    split; [reflexivity|].
    repeat split; try congruence.
    + apply list_lookup_insert_eq. eapply lookup_lt_Some; exact Hs.
    + rewrite ?app_nil_r. apply Forall_app. split.
      * unfold saved. destruct (sessions_get _ _); repeat constructor.
      * apply sends_sessions_bridge_effect.
Qed.

(** The attach handler on a session that is in the table. *)
Lemma handle_attach_spec env (ws : conn) sessionId st (r : sref) s :
  sessions_get sessionId st = Some r ->
  heap st !! r = Some s ->
  exists h' s' pre ps,
    handle_attach env ws sessionId st
    = (tt,
       mkState h' (sessions st) ps
         (alter (set_attachedSession (Some sessionId)) ws (conns st))
         (wss_clients st),
       pre ++ Send ws (attached sessionId (name s') (status s'))
           :: (if JsString.truthy (buffer s')
               then [Send ws (history sessionId (buffer s'))] else []))
    /\ h' !! r = Some s'
    /\ In ws (clients s')
    /\ name s' = name s /\ buffer s' = buffer s
    /\ Forall (fun e => bridge_effect e = true) pre
    /\ (status s = Terminated -> pre = [] /\ status s' = Terminated)
    /\ (pty s = None -> status s <> Terminated ->
        socket_exists env sessionId = true ->
        socket_exists_again env sessionId = true ->
        status s' = Running).
Proof.
  intros Hr Hs.
  destruct (leave_attached_spec ws st) as (h1 & Hleave & Hh1).
  destruct (Hh1 r s Hs) as [cl Hs1].
  destruct (bridge_spec env sessionId r (with_heap (fun _ => h1) st)
              (set_clients cl s) Hs1)
    as (h2 & s2 & pre & Hbridge & Hs2 & Hname & Hbuf & Hcl & Hpre & Hterm & Hrun & _).
  exists (<[r := set_clients (JsSet.add ws (clients s2)) s2]> h2),
    (set_clients (JsSet.add ws (clients s2)) s2), pre.
  eexists. split.
  - unfold handle_attach. unfold bind at 1, gets at 1. rewrite Hr.
    unfold bind at 1. rewrite Hleave. unfold bind at 1. rewrite Hbridge.
    run_monad. heap_norm Hs2.
    destruct (JsString.truthy (buffer (set_clients _ s2))); reflexivity.
  - cbn [clients name buffer status pty set_clients] in *.
    split; [apply list_lookup_insert_eq; eapply lookup_lt_Some; exact Hs2|].
    split; [apply JsSet_add_In|].
    split; [congruence|]. split; [congruence|]. split; [exact Hpre|].
    split.
    + intros Ht. destruct (Hterm Ht) as [-> ->]. now split.
    + intros Hp Hnt Hk Hk2. now apply Hrun.
Qed.

(** C7. An authenticated connection that attaches to a session in the
    table ends up in the client set of that session whatever the bridge
    block did, also when the session is terminated. What the handler
    issues ends with the attach confirmation, carrying the name and the
    status the session has then, and after it the history, sent exactly
    when the buffer is not empty; before the confirmation it issues
    nothing but the effects of the bridge block (spawn of a pty, write
    of a record, session lists), and nothing at all when the session is
    terminated. *)
Theorem attach_adds_client_and_replies env st (ws : conn) w sessionId
    (r : sref) s :
  conns st !! ws = Some w ->
  isAuthenticated w = true ->
  sessions_get sessionId st = Some r ->
  heap st !! r = Some s ->
  let res := on_message env ws (Some (MAttach sessionId)) st in
  exists s' pre,
    heap (final res) !! r = Some s'
    /\ In ws (clients s')
    /\ name s' = name s /\ buffer s' = buffer s
    /\ Forall (fun e => bridge_effect e = true) pre
    /\ effects res
       = pre ++ Send ws (attached sessionId (name s') (status s'))
             :: (if JsString.truthy (buffer s')
                 then [Send ws (history sessionId (buffer s'))] else [])
    /\ (status s = Terminated -> pre = [] /\ status s' = Terminated).
Proof.
  intros Hw Hauth Hr Hs res. subst res.
  rewrite (on_message_authenticated env st ws w) by (assumption || reflexivity).
  cbn [dispatch].
  destruct (handle_attach_spec env ws sessionId st r s Hr Hs)
    as (h' & s' & pre & ps & Hrun & Hs' & Hin & Hname & Hbuf & Hpre & Hterm & _).
  exists s', pre. rewrite Hrun. unfold final, effects. cbn [fst snd heap].
  repeat split; assumption || (now apply Hterm).
Qed.

(** ** Terminate, reactivate, attach *)

(** C6. Take a session in the table whose buffer holds [b] (for
    instance [abc], after a create and an output event). A client
    terminates it, reactivates it (dtach starts) and attaches to it (the
    socket file is there). The session is terminated after the first
    message, detached after the second and running after the third; its
    buffer is [b] throughout; and the attach handler ends with the
    confirmation carrying the status running, followed by the history
    [b] when [b] is not empty. *)
Theorem buffer_survives_terminate_reactivate env1 env2 env3 st (ws : conn) w
    sessionId (r : sref) s b :
  conns st !! ws = Some w ->
  isAuthenticated w = true ->
  sessions_get sessionId st = Some r ->
  heap st !! r = Some s ->
  buffer s = b ->
  dtach_create_ok env2 = true ->
  socket_exists env3 sessionId = true ->
  socket_exists_again env3 sessionId = true ->
  let r1 := on_message env1 ws (Some (MTerminate sessionId)) st in
  let r2 := on_message env2 ws (Some (MReactivate sessionId)) (final r1) in
  let r3 := on_message env3 ws (Some (MAttach sessionId)) (final r2) in
  (status (deref r (final r1)) = Terminated /\ buffer (deref r (final r1)) = b)
  /\ (status (deref r (final r2)) = Detached /\ buffer (deref r (final r2)) = b)
  /\ (status (deref r (final r3)) = Running /\ buffer (deref r (final r3)) = b)
  /\ exists pre,
       Forall (fun e => bridge_effect e = true) pre
       /\ effects r3
          = pre ++ Send ws (attached sessionId (name s) Running)
                :: (if JsString.truthy b
                    then [Send ws (history sessionId b)] else []).
Proof.
  intros Hw Hauth Hr Hs Hb Hok Hsock Hagain r1 r2 r3.
  assert (Hlt : r < length (heap st)) by (eapply lookup_lt_Some; exact Hs).
  set (s1 := set_status Terminated (set_pty None s)).
  set (st1 := store r s1 st).
  assert (H1 : r1 = (tt, st1,
                     effects (terminateSession env1 sessionId st)
                     ++ sends env1 (sessions_msg (getSessionList st1)) (wss_clients st))).
  { subst r1. rewrite (on_message_authenticated env1 st ws w) by (assumption || reflexivity).
    apply (dispatch_terminate env1 st ws sessionId r s Hr Hs). }
  assert (Hs1 : heap st1 !! r = Some s1) by now apply heap_store.
  set (s2 := set_status Detached s1).
  set (st2 := store r s2 st1).
  assert (H2 : r2 = (tt, st2,
                     effects (reactivateSession env2 sessionId st1)
                     ++ sends env2 (sessions_msg (getSessionList st2)) (wss_clients st1))).
  { subst r2. rewrite H1. cbn [final fst snd].
    rewrite (on_message_authenticated env2 st1 ws w) by (assumption || reflexivity).
    now apply (dispatch_reactivate env2 st1 ws sessionId r s1 Hr Hs1). }
  assert (Hs2 : heap st2 !! r = Some s2).
  { apply heap_store. subst st1. cbn. now rewrite length_insert. }
  destruct (handle_attach_spec env3 ws sessionId st2 r s2 Hr Hs2)
    as (h3 & s3 & pre & ps & Hrun & Hs3 & _ & Hname & Hbuf & Hpre & _ & Hst3).
  assert (Hrunning : status s3 = Running).
  { apply Hst3; try assumption; [reflexivity | discriminate]. }
  assert (H3 : r3 = handle_attach env3 ws sessionId st2).
  { subst r3. rewrite H2. cbn [final fst snd].
    now rewrite (on_message_authenticated env3 st2 ws w) by (assumption || reflexivity). }
  rewrite H1, H2, H3, Hrun. unfold final, effects. cbn [fst snd].
  rewrite (deref_lookup st1 r s1 Hs1), (deref_lookup st2 r s2 Hs2).
  rewrite (deref_lookup (mkState h3 _ _ _ _) r s3 Hs3).
  cbn [status buffer name set_status set_pty s1 s2] in *.
  rewrite Hrunning, Hname, Hbuf, Hb.
  repeat split; try reflexivity.
  exists pre. now split.
Qed.

(** ** The session list *)

Lemma sort_insert_perm x l : Permutation (sort_insert x l) (x :: l).
Proof.
  induction l as [|y l IH]; simpl; [reflexivity|].
  destruct (e_createdAt x <=? e_createdAt y)%Z; [reflexivity|].
  rewrite IH. apply perm_swap.
Qed.

Lemma sort_insert_HdRel a x l :
  createdAt_le a x -> HdRel createdAt_le a l ->
  HdRel createdAt_le a (sort_insert x l).
Proof.
  intros Hax Hal. destruct l as [|y l]; simpl.
  - now constructor.
  - destruct (e_createdAt x <=? e_createdAt y)%Z; constructor;
      [assumption | now inversion Hal].
Qed.

Lemma sort_insert_sorted x l :
  Sorted createdAt_le l -> Sorted createdAt_le (sort_insert x l).
Proof.
  induction 1 as [|y l Hl IH Hhd]; simpl.
  - repeat constructor.
  - destruct (Z.leb_spec (e_createdAt x) (e_createdAt y)) as [Hle|Hgt].
    + constructor; [now constructor | now constructor].
    + constructor; [exact IH|].
      apply sort_insert_HdRel; [unfold createdAt_le; lia | exact Hhd].
Qed.

Lemma sort_by_createdAt_sorted l : Sorted createdAt_le (sort_by_createdAt l).
Proof.
  induction l as [|x l IH]; simpl; [constructor | now apply sort_insert_sorted].
Qed.

Lemma sort_by_createdAt_perm l : Permutation (sort_by_createdAt l) l.
Proof.
  induction l as [|x l IH]; simpl; [reflexivity|].
  rewrite sort_insert_perm. now constructor.
Qed.

(** C8. In every state, [getSessionList] returns the entries of all the
    sessions of the table, each once, in ascending order of
    [createdAt]: no entry is followed, anywhere later in the list, by
    one created before it. *)
Theorem getSessionList_sorted_all st :
  StronglySorted createdAt_le (getSessionList st)
  /\ Permutation (getSessionList st) (table_entries st)
  /\ Permutation (map e_id (getSessionList st)) (map fst (sessions st)).
Proof.
  assert (Hperm : Permutation (getSessionList st) (table_entries st))
    by apply sort_by_createdAt_perm.
  split; [|split; [exact Hperm|]].
  - apply Sorted_StronglySorted.
    + intros a b c. unfold createdAt_le. lia.
    + apply sort_by_createdAt_sorted.
  - rewrite Hperm. unfold table_entries. rewrite map_map.
    erewrite map_ext; [reflexivity|]. now intros [id r].
Qed.

(** ** Resizing *)

Lemma handle_resize_run (ws : conn) cols rows st w a (r : sref) s :
  conns st !! ws = Some w ->
  attached_id w = Some a ->
  sessions_get a st = Some r ->
  heap st !! r = Some s ->
  handle_resize ws cols rows st
  = (tt, st,
     match pty s with
     | Some p => if truthy_num cols && truthy_num rows
                 then [PtyResize p cols rows] else []
     | None => []
     end).
Proof.
  intros Hw Ha Hr Hs. unfold handle_resize. run_monad.
  rewrite (ws_of_lookup _ _ _ Hw), Ha, Hr, (deref_lookup _ _ _ Hs).
  destruct (pty s); [|reflexivity].
  now destruct (truthy_num cols && truthy_num rows).
Qed.

(** C9 (as the code has it). A [resize] message from an authenticated
    client attached to a session in the table never changes the state.
    It is forwarded to the handle when the session has one and [cols]
    and [rows] are both different from zero; when the session has no
    handle, or one of the two is zero, nothing is issued. *)
Theorem resize_forwarded_when_nonzero env st (ws : conn) w a (r : sref) s cols rows :
  conns st !! ws = Some w ->
  isAuthenticated w = true ->
  attached_id w = Some a ->
  sessions_get a st = Some r ->
  heap st !! r = Some s ->
  on_message env ws (Some (MResize cols rows)) st
  = (tt, st,
     match pty s with
     | Some p => if ((cols =? 0) || (rows =? 0))%Z then []
                 else [PtyResize p cols rows]
     | None => []
     end).
Proof.
  intros Hw Hauth Ha Hr Hs.
  rewrite (on_message_authenticated env st ws w) by (assumption || reflexivity).
  cbn [dispatch]. rewrite (handle_resize_run ws cols rows st w a r s) by assumption.
  unfold truthy_num. destruct (pty s); [|reflexivity].
  now destruct (cols =? 0)%Z, (rows =? 0)%Z.
Qed.

(** C9, the part that fails: the client of the scenario is attached to a
    session that has a handle, and its [resize] with zero columns is not
    forwarded. *)
Lemma resize_zero_cols_not_forwarded :
  attachedSession (ws_of 0 st_abc) = Some "k3j9x2ab"
  /\ sessions_get "k3j9x2ab" st_abc = Some 0
  /\ pty (deref 0 st_abc) = Some 0
  /\ on_message env_ok 0 (Some (MResize 0 24)) st_abc = (tt, st_abc, []).
Proof. vm_compute. repeat split. Qed.

(** ** Startup reconciliation *)

Lemma loadSessions_skip env file content rest st :
  JsString.endsWith file ".json" = false ->
  loadSessions env ((file, content) :: rest) st = loadSessions env rest st.
Proof. intros H. cbn [loadSessions]. now rewrite H. Qed.

Lemma loadSessions_record env file data rest st :
  JsString.endsWith file ".json" = true ->
  final (loadSessions env ((file, Some data) :: rest) st)
  = final (loadSessions env rest (load_one env data st)).
Proof.
  intros H. cbn [loadSessions]. rewrite H. cbn [negb].
  unfold alloc, socketExists, load_one. run_monad.
  now destruct (loadSessions env rest _) as [[u st'] es].
Qed.

Lemma loadSessions_app env pre rest st :
  Forall loads_or_skipped pre ->
  final (loadSessions env (pre ++ rest) st)
  = final (loadSessions env rest (final (loadSessions env pre st))).
Proof.
  intros Hpre. revert st.
  induction Hpre as [|[file content] pre Hok _ IH]; intros st; [reflexivity|].
  rewrite <- app_comm_cons.
  destruct (JsString.endsWith file ".json") eqn:Hjson.
  - destruct content as [data|]; [|now destruct (Hok Hjson)].
    rewrite !loadSessions_record by assumption. apply IH.
  - rewrite !loadSessions_skip by assumption. apply IH.
Qed.

(** Records that carry other ids leave the entry of an id alone. *)
Lemma loadSessions_keeps env files st id (r : sref) s :
  sessions_get id st = Some r ->
  heap st !! r = Some s ->
  (forall f d, In (f, Some d) files -> r_id d <> id) ->
  sessions_get id (final (loadSessions env files st)) = Some r
  /\ heap (final (loadSessions env files st)) !! r = Some s.
Proof.
  revert st. induction files as [|[file content] files IH]; intros st Hr Hs Hother.
  - now split.
  - destruct (JsString.endsWith file ".json") eqn:Hjson.
    + destruct content as [data|].
      * rewrite loadSessions_record by assumption. apply IH.
        -- unfold sessions_get, load_one. cbn [sessions with_sessions with_heap].
           rewrite JsMap_get_set_ne; [exact Hr|].
           apply (Hother file data). now left.
        -- unfold load_one. cbn [heap with_sessions with_heap].
           now apply lookup_app_l_Some.
        -- intros f d Hin. apply (Hother f d). now right.
      * cbn [loadSessions]. rewrite Hjson. now split.
    + rewrite loadSessions_skip by assumption. apply IH; try assumption.
      intros f d Hin. apply (Hother f d). now right.
Qed.

(** C4. At startup, take a record file of the sessions directory such
    that every file listed before it could be loaded and no record
    listed after it carries the same id (as it is when every record is
    in the file named after its id). The session is in the table after
    [loadSessions], with the name and buffer of the record, and its
    status is: terminated when the stored status is [terminated],
    whether the socket file exists or not; otherwise terminated when the
    socket file does not exist, and detached when it does. *)
Theorem loadSessions_reconciles_status env pre file data post :
  Forall loads_or_skipped pre ->
  JsString.endsWith file ".json" = true ->
  (forall f d, In (f, Some d) post -> r_id d <> r_id data) ->
  let st := final (loadSessions env (pre ++ (file, Some data) :: post) initial_state) in
  exists (r : sref) s,
    sessions_get (r_id data) st = Some r
    /\ heap st !! r = Some s
    /\ name s = r_name data
    /\ buffer s = buffer_or_empty (r_buffer data)
    /\ (r_status data = "terminated" -> status s = Terminated)
    /\ (r_status data <> "terminated" ->
        socket_exists env (r_id data) = false -> status s = Terminated)
    /\ (r_status data <> "terminated" ->
        socket_exists env (r_id data) = true -> status s = Detached).
Proof.
  intros Hpre Hjson Hpost st. subst st.
  rewrite loadSessions_app by assumption.
  rewrite loadSessions_record by assumption.
  set (st0 := final (loadSessions env pre initial_state)).
  set (s := mkSession None (buffer_or_empty (r_buffer data))
              (restored_status (r_status data) (socket_exists env (r_id data)))
              (r_name data) (r_createdAt data) []).
  destruct (loadSessions_keeps env post (load_one env data st0) (r_id data)
              (length (heap st0)) s) as [Hget Hheap].
  - unfold sessions_get, load_one. cbn [sessions with_sessions with_heap].
    apply JsMap_get_set_eq.
  - unfold load_one. cbn [heap with_sessions with_heap].
    now apply list_lookup_middle.
  - exact Hpost.
  - exists (length (heap st0)), s. repeat split; try assumption.
    + intros Hterm. cbn. unfold restored_status. now rewrite Hterm.
    + intros Hnt Hsock. cbn. unfold restored_status. rewrite Hsock.
      now destruct (String.eqb (r_status data) "terminated").
    + intros Hnt Hsock. cbn. unfold restored_status. rewrite Hsock.
      destruct (String.eqb_spec (r_status data) "terminated"); [contradiction|reflexivity].
Qed.

(** ** Terminate followed by the exit of the handle *)

Lemma onExit_run env sessionId (r : sref) st s :
  heap st !! r = Some s ->
  let st' := store r (set_status (if socket_exists env sessionId
                                  then Detached else Terminated)
                        (set_pty None s)) st in
  onExit env sessionId r st
  = (tt, st',
     saved sessionId st'
     ++ sends env (sessions_msg (getSessionList st')) (wss_clients st)).
Proof.
  intros Hs st'. subst st'. unfold onExit, socketExists. run_monad.
  destruct (socket_exists env sessionId); run_monad.
  all: rewrite saveSession_run; run_monad.
  all: rewrite broadcastSessionList_run; run_monad.
  all: unfold store; heap_norm Hs; now rewrite ?app_nil_r.
Qed.

(** X23. The exit callback of a handle that [terminateSession] has killed
    runs while the socket file is still there (its removal is scheduled
    later): the session that was just terminated is detached again. *)
Lemma exit_after_terminate_detaches env1 env2 st sessionId (r : sref) s (p : ptyref) :
  sessions_get sessionId st = Some r ->
  heap st !! r = Some s ->
  ptys st !! p = Some (sessionId, r) ->
  socket_exists env2 sessionId = true ->
  let st1 := final (terminateSession env1 sessionId st) in
  let st2 := final (step env2 (PtyExit p) st1) in
  status (deref r st1) = Terminated /\ status (deref r st2) = Detached.
Proof.
  intros Hr Hs Hp Hsock st1 st2. subst st2 st1.
  assert (Hlt : r < length (heap st)) by (eapply lookup_lt_Some; exact Hs).
  rewrite (terminateSession_run _ _ _ _ _ Hr Hs). cbn [final fst snd].
  rewrite deref_store by assumption. split; [reflexivity|].
  rewrite (step_PtyExit env2 p _ sessionId r) by exact Hp.
  pose proof (onExit_run env2 sessionId r
                (store r (set_status Terminated (set_pty None s)) st)
                (set_status Terminated (set_pty None s))
                (heap_store _ _ _ Hlt)) as Hexit.
  cbv zeta in Hexit. rewrite Hexit, Hsock. cbn [final fst snd].
  rewrite deref_store; [reflexivity|].
  cbn. now rewrite length_insert.
Qed.

(** C2, on the code. The client of the scenario terminates its running
    session: the handle is killed first, the record is written with
    status [terminated] and the client is told. Then the exit callback
    of the killed handle runs, the socket file still being there: the
    session is detached, its record is written again with status
    [detached], and the session list sent out says so. *)
Theorem terminate_then_exit_reads_detached :
  let r1 := step env_ok (Message 0 (Some (MTerminate "k3j9x2ab"))) st_abc in
  let r2 := step env_ok (PtyExit 0) (final r1) in
  pty (deref 0 st_abc) = Some 0
  /\ effects r1
     = [PtyKill 0; KillSocketOwners "k3j9x2ab"; UnlinkSocketLater "k3j9x2ab";
        WriteRecord (mkRecord "k3j9x2ab" "Session 1" (Some "abc") "terminated"
                       1700000000000);
        Send 0 (terminated "k3j9x2ab");
        Send 0 (sessions_msg [mkEntry "k3j9x2ab" "Session 1" Terminated 1700000000000])]
  /\ status (deref 0 (final r1)) = Terminated
  /\ status (deref 0 (final r2)) = Detached
  /\ effects r2
     = [WriteRecord (mkRecord "k3j9x2ab" "Session 1" (Some "abc") "detached"
                       1700000000000);
        Send 0 (sessions_msg [mkEntry "k3j9x2ab" "Session 1" Detached 1700000000000])].
Proof. vm_compute. repeat split. Qed.

(** * Further properties of the session manager *)

(** ** Properties kept by every handler *)

Section Preservation.

Variable P : state -> Prop.

Lemma Pres_bind {A B} (m : M A) (f : A -> M B) :
  Pres P m -> (forall a, Pres P (f a)) -> Pres P (bind m f).
Proof. intros Hm Hf st H. rewrite final_bind. now apply Hf, Hm. Qed.

Lemma Pres_modify f : (forall st, P st -> P (f st)) -> Pres P (modify f).
Proof. intros Hf st H. now apply Hf. Qed.

Lemma Pres_ret {A} (a : A) : Pres P (ret a).
Proof. now intros st H. Qed.

Lemma Pres_gets {A} (f : state -> A) : Pres P (gets f).
Proof. now intros st H. Qed.

Lemma Pres_emit e : Pres P (emit e).
Proof. now intros st H. Qed.

Lemma Pres_when b m : Pres P m -> Pres P (when b m).
Proof. intros Hm. destruct b; [exact Hm | apply Pres_ret]. Qed.

Lemma Pres_forEach {A} (l : list A) f :
  (forall x, Pres P (f x)) -> Pres P (forEach l f).
Proof.
  intros Hf. induction l as [|x l IH]; cbn [forEach]; [apply Pres_ret|].
  apply Pres_bind; [apply Hf | intros _; exact IH].
Qed.

Lemma Pres_run (Hstep : forall env ev, Pres P (step env ev)) evs st :
  P st -> P (fst (run evs st)).
Proof.
  revert st. induction evs as [|[env ev] evs IH]; intros st H; [exact H|].
  rewrite run_cons. cbn [fst]. now apply IH, Hstep.
Qed.

End Preservation.

(** The steps common to the proofs that a handler preserves a property;
    [prim] closes the goals about assignments. *)
Ltac pres_with prim :=
  cbv zeta;
  repeat first
    [ prim
    | apply Pres_bind; [|intros ?]
    | apply Pres_ret | apply Pres_gets | apply Pres_emit
    | apply Pres_when
    | apply Pres_forEach; intros ?
    | match goal with
      | |- Pres _ (match ?x with _ => _ end) => destruct x
      end
    | progress unfold send_if_open, saveSession, broadcastSessionList,
        createDtachSession, killDtachSocket, attachToDtach, bridge,
        leave_attached, createSession, terminateSession, reactivateSession,
        deleteSession, handle_attach, handle_detach, handle_input,
        handle_resize, handle_rename, onData, onExit ].

(** *** One entry per id *)

Lemma JsMap_set_keys {V} k (v : V) m :
  map fst (JsMap.set k v m)
  = match JsMap.get k m with
    | Some _ => map fst m
    | None => map fst m ++ [k]
    end.
Proof.
  induction m as [|[k' v'] m IH]; [reflexivity|]. simpl.
  destruct (String.eqb_spec k k') as [->|Hne]; simpl; [reflexivity|].
  rewrite IH. now destruct (JsMap.get k m).
Qed.

Lemma JsMap_get_None_keys {V} k (m : list (string * V)) :
  JsMap.get k m = None -> ~ In k (map fst m).
Proof.
  induction m as [|[k' v'] m IH]; simpl; [tauto|].
  destruct (String.eqb_spec k k') as [->|Hne]; [discriminate|].
  intros H [Heq|Hin]; [congruence | now apply IH].
Qed.

Lemma JsMap_set_NoDup {V} k (v : V) m :
  NoDup (map fst m) -> NoDup (map fst (JsMap.set k v m)).
Proof.
  intros H. rewrite JsMap_set_keys.
  destruct (JsMap.get k m) eqn:Hget; [exact H|].
  apply NoDup_app. repeat split; [exact H| |apply NoDup_singleton].
  intros x Hx Hk. apply list_elem_of_In in Hx.
  apply list_elem_of_singleton in Hk. subst x.
  now apply (JsMap_get_None_keys k m Hget).
Qed.

Lemma JsMap_delete_keys_In {V} k (m : list (string * V)) x :
  In x (map fst (JsMap.delete k m)) -> In x (map fst m).
Proof.
  induction m as [|[k' v'] m IH]; simpl; [tauto|].
  destruct (String.eqb k k'); simpl; [auto|].
  intros [<-|H]; auto.
Qed.

Lemma JsMap_delete_NoDup {V} k (m : list (string * V)) :
  NoDup (map fst m) -> NoDup (map fst (JsMap.delete k m)).
Proof.
  induction m as [|[k' v'] m IH]; simpl; [auto|].
  intros H. apply NoDup_cons in H as [Hnotin Hnd].
  destruct (String.eqb k k'); simpl; [exact Hnd|].
  apply NoDup_cons. split; [|now apply IH].
  intros Hin. apply Hnotin. apply list_elem_of_In.
  apply list_elem_of_In in Hin. eapply JsMap_delete_keys_In, Hin.
Qed.

Lemma JsMap_get_delete_eq {V} k (m : list (string * V)) :
  NoDup (map fst m) -> JsMap.get k (JsMap.delete k m) = None.
Proof.
  induction m as [|[k' v'] m IH]; simpl; [reflexivity|].
  intros H. apply NoDup_cons in H as [Hnotin Hnd].
  destruct (String.eqb_spec k k') as [->|Hne]; simpl.
  - destruct (JsMap.get k' m) eqn:Hget; [|reflexivity].
    destruct Hnotin. apply list_elem_of_In.
    apply JsMap_get_In in Hget. now apply (in_map fst) in Hget.
  - destruct (String.eqb_spec k k'); [contradiction | now apply IH].
Qed.

Lemma JsMap_get_delete_ne {V} k k' (m : list (string * V)) :
  k <> k' -> JsMap.get k' (JsMap.delete k m) = JsMap.get k' m.
Proof.
  intros Hne. induction m as [|[k1 v1] m IH]; simpl; [reflexivity|].
  destruct (String.eqb_spec k k1) as [->|Hk]; simpl.
  - destruct (String.eqb_spec k' k1); [congruence | reflexivity].
  - destruct (String.eqb_spec k' k1); [reflexivity | exact IH].
Qed.

Lemma Pres_unique_same f :
  (forall st, sessions (f st) = sessions st) -> Pres unique_ids (modify f).
Proof. intros Hf. apply Pres_modify. intros st H. unfold unique_ids. now rewrite Hf. Qed.

Lemma Pres_unique_alloc s : Pres unique_ids (alloc s).
Proof. now intros st H. Qed.

Lemma Pres_unique_set k (r : sref) :
  Pres unique_ids (modify (with_sessions (JsMap.set k r))).
Proof. apply Pres_modify. intros st H. now apply JsMap_set_NoDup. Qed.

Lemma Pres_unique_delete k :
  Pres unique_ids (modify (with_sessions (JsMap.delete k))).
Proof. apply Pres_modify. intros st H. now apply JsMap_delete_NoDup. Qed.

Ltac unique_prim :=
  first
    [ apply Pres_unique_set | apply Pres_unique_delete | apply Pres_unique_alloc
    | apply Pres_unique_same; reflexivity ].

Lemma unique_ids_step env ev : Pres unique_ids (step env ev).
Proof.
  destruct ev as [|ws [msg|]|ws|p data|p|]; cbn [step on_message].
  2: destruct msg; cbn [dispatch].
  all: unfold on_connection, on_close, save_all, handle_auth, dispatch.
  all: pres_with unique_prim.
Qed.

Lemma unique_ids_loadSessions env files : Pres unique_ids (loadSessions env files).
Proof.
  induction files as [|[file content] files IH]; cbn [loadSessions];
    pres_with unique_prim; exact IH.
Qed.

Lemma unique_ids_reachable st : reachable st -> unique_ids st.
Proof.
  intros (env & files & evs & ->).
  apply Pres_run; [apply unique_ids_step|].
  apply unique_ids_loadSessions. constructor.
Qed.

(** *** Running exactly when there is a handle *)

Lemma Pres_cons_same f :
  (forall st, heap (f st) = heap st) -> Pres consistent (modify f).
Proof. intros Hf. apply Pres_modify. intros st H. unfold consistent. now rewrite Hf. Qed.

Lemma Pres_cons_alloc s : handle_iff_running s -> Pres consistent (alloc s).
Proof.
  intros Hs st H. unfold consistent. cbn. apply Forall_app. split; [exact H|].
  now constructor.
Qed.

Lemma Pres_cons_mutate (r : sref) f :
  (forall s, pty (f s) = pty s /\ status (f s) = status s) ->
  Pres consistent (mutate r f).
Proof.
  intros Hf st H. unfold consistent. cbn. apply Forall_alter; [exact H|].
  intros s _ Hok. unfold handle_iff_running in *.
  destruct (Hf s) as [-> ->]. exact Hok.
Qed.

Lemma restored_status_not_Running stored hasSocket :
  restored_status stored hasSocket <> Running.
Proof.
  unfold restored_status.
  destruct (String.eqb stored "terminated"), hasSocket; discriminate.
Qed.

Lemma handle_iff_running_new b st n t :
  st <> Running -> handle_iff_running (mkSession None b st n t []).
Proof. intros H. split; cbn; [contradiction | discriminate]. Qed.

(** The assignments of a handler, once run, amount to one change [F] of
    the object behind [r]. *)
Lemma consistent_alter st (r : sref) F :
  consistent st ->
  (handle_iff_running (deref r st) -> handle_iff_running (F (deref r st))) ->
  Forall handle_iff_running (alter F r (heap st)).
Proof.
  intros H HF. apply Forall_alter; [exact H|].
  intros s Hs Hok. rewrite <- (deref_lookup _ _ _ Hs). apply HF.
  now rewrite (deref_lookup _ _ _ Hs).
Qed.

Ltac finish_consistent H :=
  unfold final, consistent, with_heap, with_ptys; cbn [fst snd heap];
  rewrite ?list_alter_alter_eq;
  apply consistent_alter; [exact H|];
  unfold handle_iff_running, compose; cbn [pty status set_pty set_status is_some].

Lemma attachToDtach_consistent env sessionId (r : sref) :
  Pres consistent (attachToDtach env sessionId r).
Proof.
  intros st H. unfold attachToDtach.
  destruct (socket_exists_again env sessionId); run_monad; [|exact H].
  finish_consistent H. tauto.
Qed.

Lemma onExit_consistent env sessionId (r : sref) :
  Pres consistent (onExit env sessionId r).
Proof.
  intros st H. unfold onExit, socketExists. run_monad.
  destruct (socket_exists env sessionId); run_monad.
  all: rewrite saveSession_run; run_monad.
  all: rewrite broadcastSessionList_run; run_monad.
  all: finish_consistent H.
  all: intros _; split; discriminate.
Qed.

Lemma terminateSession_consistent env sessionId :
  Pres consistent (terminateSession env sessionId).
Proof.
  intros st H. unfold terminateSession, killDtachSocket. run_monad.
  destruct (sessions_get sessionId st) as [r|]; [|exact H].
  destruct (pty (deref r st)) as [p|] eqn:Hp, (socket_exists env sessionId);
    run_monad.
  all: rewrite saveSession_run; run_monad; rewrite forEach_send; run_monad.
  all: finish_consistent H.
  all: rewrite ?Hp; intros _; split; discriminate.
Qed.

Lemma reactivateSession_consistent env sessionId :
  Pres consistent (reactivateSession env sessionId).
Proof.
  intros st H. unfold reactivateSession, createDtachSession. run_monad.
  destruct (sessions_get sessionId st) as [r|]; [|exact H].
  destruct (status (deref r st)) eqn:Hst; cbn [status_eqb negb]; try exact H.
  destruct (dtach_create_ok env); run_monad; [|exact H].
  rewrite saveSession_run; run_monad; rewrite forEach_send; run_monad.
  finish_consistent H.
  rewrite Hst. intros [_ Hok]. split; [discriminate|].
  intros Hsome. now specialize (Hok Hsome).
Qed.

Lemma Pres_saveSession P sessionId : Pres P (saveSession sessionId).
Proof. intros st H. now rewrite saveSession_run. Qed.

Lemma Pres_broadcastSessionList P env : Pres P (broadcastSessionList env).
Proof. intros st H. now rewrite broadcastSessionList_run. Qed.

Lemma bridge_consistent env sessionId (r : sref) :
  Pres consistent (bridge env sessionId r).
Proof.
  intros st H. unfold bridge, socketExists. rewrite final_bind.
  cbn [gets result final fst snd].
  destruct (pty (deref r st)) as [p|] eqn:Hp; cbn [is_some negb andb]; [exact H|].
  destruct (status_eqb (status (deref r st)) Terminated); cbn [negb]; [exact H|].
  destruct (socket_exists env sessionId).
  - apply (Pres_bind consistent); [apply attachToDtach_consistent | intros _|exact H].
    apply Pres_broadcastSessionList.
  - run_monad. rewrite saveSession_run; run_monad.
    rewrite broadcastSessionList_run; run_monad.
    finish_consistent H. rewrite Hp. intros _. split; discriminate.
Qed.

Ltac consistent_prim :=
  first
    [ apply terminateSession_consistent | apply reactivateSession_consistent
    | apply bridge_consistent | apply onExit_consistent
    | apply Pres_saveSession | apply Pres_broadcastSessionList
    | apply Pres_cons_alloc; apply handle_iff_running_new;
      first [discriminate | apply restored_status_not_Running]
    | apply Pres_cons_mutate; intros []; split; reflexivity
    | apply Pres_cons_same; reflexivity ].

Lemma consistent_step env ev : Pres consistent (step env ev).
Proof.
  destruct ev as [|ws [msg|]|ws|p data|p|]; cbn [step on_message].
  2: destruct msg; cbn [dispatch].
  all: unfold on_connection, on_close, save_all, handle_auth, dispatch.
  all: pres_with consistent_prim.
Qed.

Lemma consistent_loadSessions env files : Pres consistent (loadSessions env files).
Proof.
  induction files as [|[file content] files IH]; cbn [loadSessions];
    pres_with consistent_prim; exact IH.
Qed.

Lemma consistent_reachable st : reachable st -> consistent st.
Proof.
  intros (env & files & evs & ->).
  apply Pres_run; [apply consistent_step|].
  apply consistent_loadSessions. constructor.
Qed.

Lemma wf_of_reachable st : reachable st -> wf st.
Proof. intros (env & files & evs & ->). apply wf_reachable. Qed.

(** X1. In every state the server reaches, from startup on any sessions
    directory and through any events, a session of the table has status
    running exactly when it holds an in-process pty handle. *)
Theorem running_iff_handle env files evs :
  let st := fst (run evs (final (loadSessions env files initial_state))) in
  Forall (fun entry =>
            status (deref (snd entry) st) = Running
            <-> is_some (pty (deref (snd entry) st)) = true)
         (sessions st).
Proof.
  intros st.
  assert (Hreach : reachable st) by (now exists env, files, evs).
  pose proof (consistent_reachable st Hreach) as Hc.
  pose proof (wf_of_reachable st Hreach) as [Hwf _].
  unfold consistent in Hc. rewrite Forall_forall in Hc.
  eapply Forall_impl; [exact Hwf|].
  intros [id r] Hr. cbn [snd] in *.
  apply lookup_lt_is_Some_2 in Hr as [s Hs].
  rewrite (deref_lookup _ _ _ Hs). apply Hc.
  eapply list_elem_of_lookup_2, Hs.
Qed.

(** ** Terminate, reactivate and delete on a session of the table *)

(** X2. When an authenticated client terminates a session of the table,
    the handle (if any) is killed before anything else; if the socket
    file is there its owners are killed and its removal is scheduled;
    the record is written once, with status [terminated]; [terminated]
    goes to the open clients of that session and to nobody else; last,
    the session list goes to every open connection. Only that session
    object changes: it is terminated and has no handle, and keeps its
    buffer, name, creation time and clients. *)
Theorem terminate_known_session env st (ws : conn) w sessionId (r : sref) s :
  conns st !! ws = Some w ->
  isAuthenticated w = true ->
  sessions_get sessionId st = Some r ->
  heap st !! r = Some s ->
  let s' := mkSession None (buffer s) Terminated (name s) (createdAt s) (clients s) in
  let st' := mkState (<[r := s']> (heap st)) (sessions st) (ptys st) (conns st)
               (wss_clients st) in
  on_message env ws (Some (MTerminate sessionId)) st
  = (tt, st',
     match pty s with Some p => [PtyKill p] | None => [] end
     ++ (if socket_exists env sessionId
         then [KillSocketOwners sessionId; UnlinkSocketLater sessionId] else [])
     ++ [WriteRecord (mkRecord sessionId (name s) (Some (buffer s))
                        "terminated" (createdAt s))]
     ++ sends env (terminated sessionId) (clients s)
     ++ sends env (sessions_msg (getSessionList st')) (wss_clients st)).
Proof.
  intros Hw Hauth Hr Hs s' st'.
  rewrite (on_message_authenticated env st ws w) by (assumption || reflexivity).
  pose proof (dispatch_terminate env st ws sessionId r s Hr Hs) as Hd.
  cbv zeta in Hd. rewrite Hd.
  rewrite (terminateSession_run _ _ _ _ _ Hr Hs). unfold effects. cbn [snd].
  rewrite <- !app_assoc. reflexivity.
Qed.

(** X3. A [reactivate] message for a session of the table does something
    only if the session is terminated and dtach starts: then the session
    becomes detached (same object, same buffer, name and clients), its
    record is written, its open clients are told [reactivated] and the
    list is broadcast. If the session is not terminated nothing happens
    at all; if dtach fails to start the state is unchanged and nothing
    is sent. *)
Theorem reactivate_outcome env st (ws : conn) w sessionId (r : sref) s :
  conns st !! ws = Some w ->
  isAuthenticated w = true ->
  sessions_get sessionId st = Some r ->
  heap st !! r = Some s ->
  let st' := store r (set_status Detached s) st in
  on_message env ws (Some (MReactivate sessionId)) st
  = match status s with
    | Terminated =>
        if dtach_create_ok env
        then (tt, st',
              [DtachCreate sessionId;
               WriteRecord (mkRecord sessionId (name s) (Some (buffer s))
                              "detached" (createdAt s))]
              ++ sends env (reactivated sessionId) (clients s)
              ++ sends env (sessions_msg (getSessionList st')) (wss_clients st))
        else (tt, st, [DtachCreate sessionId])
    | _ => (tt, st, [])
    end.
Proof.
  intros Hw Hauth Hr Hs st'.
  rewrite (on_message_authenticated env st ws w) by (assumption || reflexivity).
  destruct (status s) eqn:Hst.
  3: destruct (dtach_create_ok env) eqn:Hok.
  3: { pose proof (dispatch_reactivate env st ws sessionId r s Hr Hs Hst Hok) as Hd.
       cbv zeta in Hd. rewrite Hd.
       rewrite (reactivateSession_run _ _ _ _ _ Hr Hs Hst Hok).
       unfold effects. cbn [snd]. now rewrite <- app_assoc. }
  all: cbn [dispatch]; unfold reactivateSession, createDtachSession; run_monad.
  all: rewrite Hr, (deref_lookup _ _ _ Hs), Hst; cbn [status_eqb negb]; try reflexivity.
  rewrite Hok. reflexivity.
Qed.

Lemma getSessionList_ids st :
  Permutation (map e_id (getSessionList st)) (map fst (sessions st)).
Proof.
  unfold getSessionList. rewrite sort_by_createdAt_perm, map_map.
  erewrite map_ext; [reflexivity|]. now intros [id r].
Qed.

Lemma deleteSession_run env sessionId st (r : sref) s :
  sessions_get sessionId st = Some r ->
  heap st !! r = Some s ->
  deleteSession env sessionId st
  = (true, with_sessions (JsMap.delete sessionId) st,
     match pty s with Some p => [PtyKill p] | None => [] end
     ++ (if socket_exists env sessionId
         then [KillSocketOwners sessionId; UnlinkSocketLater sessionId] else [])
     ++ [UnlinkRecord sessionId; UnlinkSocket sessionId]).
Proof.
  intros Hr Hs. unfold deleteSession, killDtachSocket. run_monad.
  rewrite Hr, (deref_lookup _ _ _ Hs).
  destruct (pty s), (socket_exists env sessionId); reflexivity.
Qed.

(** X4. When an authenticated client deletes a session of the table, the
    id is no longer in the table nor in the session list, every other id
    maps to what it mapped to, the record file and the socket file are
    removed, and an attach to the deleted id is then answered with
    [Session not found] and changes nothing. The clients of the deleted
    session get no message of their own: only the new list, like
    everybody. *)
Theorem delete_removes_session env env' st (ws : conn) w sessionId (r : sref) s :
  conns st !! ws = Some w ->
  isAuthenticated w = true ->
  unique_ids st ->
  sessions_get sessionId st = Some r ->
  heap st !! r = Some s ->
  let res := on_message env ws (Some (MDelete sessionId)) st in
  let st' := final res in
  sessions_get sessionId st' = None
  /\ (forall other, other <> sessionId ->
        sessions_get other st' = sessions_get other st)
  /\ heap st' = heap st
  /\ (In sessionId (map e_id (getSessionList st')) -> False)
  /\ effects res
     = match pty s with Some p => [PtyKill p] | None => [] end
       ++ (if socket_exists env sessionId
           then [KillSocketOwners sessionId; UnlinkSocketLater sessionId] else [])
       ++ [UnlinkRecord sessionId; UnlinkSocket sessionId]
       ++ sends env (sessions_msg (getSessionList st')) (wss_clients st)
  /\ on_message env' ws (Some (MAttach sessionId)) st'
     = (tt, st', [Send ws (error "Session not found")]).
Proof.
  intros Hw Hauth Huniq Hr Hs res st'.
  assert (Hres : res = (tt, with_sessions (JsMap.delete sessionId) st,
                        effects (deleteSession env sessionId st)
                        ++ sends env (sessions_msg (getSessionList
                              (with_sessions (JsMap.delete sessionId) st)))
                             (wss_clients st))).
  { subst res.
    rewrite (on_message_authenticated env st ws w) by (assumption || reflexivity).
    cbn [dispatch]. unfold bind.
    rewrite (deleteSession_run _ _ _ _ _ Hr Hs). unfold when.
    now rewrite broadcastSessionList_run. }
  assert (Hst' : st' = with_sessions (JsMap.delete sessionId) st)
    by (subst st'; now rewrite Hres).
  assert (Hgone : sessions_get sessionId st' = None).
  { rewrite Hst'. unfold sessions_get. cbn. now apply JsMap_get_delete_eq. }
  split; [exact Hgone|]. split.
  { intros other Hne. rewrite Hst'. unfold sessions_get. cbn.
    apply JsMap_get_delete_ne. congruence. }
  split; [now rewrite Hst'|]. split.
  { intros Hin. eapply Permutation_in in Hin; [|apply getSessionList_ids].
    now apply (JsMap_get_None_keys sessionId (sessions st')). }
  split.
  { rewrite Hres. unfold effects at 1. cbn [snd]. rewrite <- Hst'.
    rewrite (deleteSession_run _ _ _ _ _ Hr Hs). unfold effects. cbn [snd].
    now rewrite <- !app_assoc. }
  rewrite (on_message_authenticated env' st' ws w); try assumption; try reflexivity.
  - cbn [dispatch]. unfold handle_attach. run_monad. now rewrite Hgone.
  - now rewrite Hst'.
Qed.

(** ** Leaving a session *)

Lemma JsSet_delete_In c x s : In x (JsSet.delete c s) <-> In x s /\ x <> c.
Proof.
  unfold JsSet.delete. rewrite <- !list_elem_of_In, list_elem_of_filter. tauto.
Qed.

Lemma leave_attached_run (ws : conn) st w a (r : sref) s :
  conns st !! ws = Some w ->
  attached_id w = Some a ->
  sessions_get a st = Some r ->
  heap st !! r = Some s ->
  leave_attached ws st
  = (tt, store r (set_clients (JsSet.delete ws (clients s)) s) st, []).
Proof.
  intros Hw Ha Hr Hs. unfold leave_attached. run_monad.
  rewrite (ws_of_lookup _ _ _ Hw), Ha, Hr. unfold store, with_heap.
  now rewrite (alter_insert _ _ _ _ Hs).
Qed.

(** X5. A [detach] message from an authenticated client attached to a
    session of the table takes that connection, and no other, out of the
    client set of the session and clears the connection's attachment.
    Nothing is sent, nothing is done to the handle or the backing
    process, and the session keeps its status, buffer and name; no other
    session object changes. *)
Theorem detach_only_leaves env st (ws : conn) w a (r : sref) s :
  conns st !! ws = Some w ->
  isAuthenticated w = true ->
  attached_id w = Some a ->
  sessions_get a st = Some r ->
  heap st !! r = Some s ->
  let res := on_message env ws (Some MDetach) st in
  exists s',
    effects res = []
    /\ heap (final res) = <[r := s']> (heap st)
    /\ sessions (final res) = sessions st
    /\ (forall c, In c (clients s') <-> In c (clients s) /\ c <> ws)
    /\ pty s' = pty s /\ status s' = status s
    /\ buffer s' = buffer s /\ name s' = name s
    /\ attachedSession (ws_of ws (final res)) = None.
Proof.
  intros Hw Hauth Ha Hr Hs res.
  assert (Hres : res = (tt, with_conns (alter (set_attachedSession None) ws)
                              (store r (set_clients (JsSet.delete ws (clients s)) s) st),
                        [])).
  { subst res.
    rewrite (on_message_authenticated env st ws w) by (assumption || reflexivity).
    cbn [dispatch]. unfold handle_detach. unfold bind at 1, gets at 1.
    rewrite (ws_of_lookup _ _ _ Hw), Ha. unfold bind.
    now rewrite (leave_attached_run ws st w a r s) by assumption. }
  rewrite Hres. unfold final, effects. cbn [fst snd].
  exists (set_clients (JsSet.delete ws (clients s)) s).
  split; [reflexivity|]. split; [reflexivity|]. split; [reflexivity|].
  split; [intros c; apply JsSet_delete_In|].
  do 4 (split; [reflexivity|]).
  unfold ws_of. cbn [conns store with_heap with_conns].
  rewrite list_lookup_total_alter_eq by (eapply lookup_lt_Some; exact Hw).
  reflexivity.
Qed.

(** X6. When the connection of a client attached to a session of the
    table closes, the connection leaves [wss.clients] and the client set
    of the session; the other clients stay, the session keeps its status
    and its handle, and nothing is sent or written. *)
Theorem close_only_leaves env st (ws : conn) w a (r : sref) s :
  conns st !! ws = Some w ->
  attached_id w = Some a ->
  sessions_get a st = Some r ->
  heap st !! r = Some s ->
  let res := step env (Close ws) st in
  exists s',
    effects res = []
    /\ heap (final res) = <[r := s']> (heap st)
    /\ sessions (final res) = sessions st
    /\ (forall c, In c (clients s') <-> In c (clients s) /\ c <> ws)
    /\ pty s' = pty s /\ status s' = status s
    /\ buffer s' = buffer s /\ name s' = name s
    /\ (forall c, In c (wss_clients (final res)) <-> In c (wss_clients st) /\ c <> ws).
Proof.
  intros Hw Ha Hr Hs res.
  assert (Hres : res = (tt, store r (set_clients (JsSet.delete ws (clients s)) s)
                              (with_wss_clients (JsSet.delete ws) st), [])).
  { subst res. cbn [step]. unfold on_close. unfold bind, modify.
    now rewrite (leave_attached_run ws _ w a r s) by assumption. }
  rewrite Hres. unfold final, effects. cbn [fst snd].
  exists (set_clients (JsSet.delete ws (clients s)) s).
  split; [reflexivity|]. split; [reflexivity|]. split; [reflexivity|].
  split; [intros c; apply JsSet_delete_In|].
  do 4 (split; [reflexivity|]).
  intros c. cbn [wss_clients store with_heap with_wss_clients].
  apply JsSet_delete_In.
Qed.

(** ** Input *)

(** X7. An [input] message from an authenticated client never changes the
    state and never makes the server send anything to anybody. It is
    written to a pty, the handle of the session the client is attached
    to, exactly when that session is in the table, has a handle and is
    running; in every other case it is dropped without a reply. *)
Theorem input_forwarded_or_dropped env st (ws : conn) w data :
  conns st !! ws = Some w ->
  isAuthenticated w = true ->
  let res := on_message env ws (Some (MInput data)) st in
  final res = st
  /\ (effects res = []
      \/ exists a (r : sref) p,
           attached_id w = Some a /\ sessions_get a st = Some r
           /\ pty (deref r st) = Some p /\ status (deref r st) = Running
           /\ effects res = [PtyWrite p data])
  /\ (forall a (r : sref) p,
        attached_id w = Some a -> sessions_get a st = Some r ->
        pty (deref r st) = Some p -> status (deref r st) = Running ->
        effects res = [PtyWrite p data]).
Proof.
  intros Hw Hauth res.
  assert (Hres : res
    = (tt, st,
       match attached_id w with
       | Some a =>
           match sessions_get a st with
           | Some r =>
               match pty (deref r st) with
               | Some p => if status_eqb (status (deref r st)) Running
                           then [PtyWrite p data] else []
               | None => []
               end
           | None => []
           end
       | None => []
       end)).
  { subst res.
    rewrite (on_message_authenticated env st ws w) by (assumption || reflexivity).
    cbn [dispatch]. unfold handle_input. run_monad.
    rewrite (ws_of_lookup _ _ _ Hw).
    destruct (attached_id w) as [a|]; [|reflexivity].
    destruct (sessions_get a st) as [r|]; [|reflexivity].
    destruct (pty (deref r st)); [|reflexivity].
    now destruct (status_eqb (status (deref r st)) Running). }
  rewrite Hres. unfold final, effects. cbn [fst snd].
  split; [reflexivity|]. split.
  - destruct (attached_id w) as [a|] eqn:Ha; [|now left].
    destruct (sessions_get a st) as [r|] eqn:Hr; [|now left].
    destruct (pty (deref r st)) as [p|] eqn:Hp; [|now left].
    destruct (status (deref r st)) eqn:Hst; cbn [status_eqb]; try (now left).
    right. exists a, r, p. repeat split; assumption || reflexivity.
  - intros a r p Ha Hr Hp Hst. now rewrite Ha, Hr, Hp, Hst.
Qed.

(** ** Rename *)

(** X8. A [rename] message of an authenticated client for a session of
    the table with a non-empty name changes the name of that session
    and nothing else of it (status, buffer, handle and clients stay),
    writes its record and broadcasts the list. With a missing or empty
    name, nothing happens. *)
Theorem rename_outcome env st (ws : conn) w sessionId (r : sref) s name :
  conns st !! ws = Some w ->
  isAuthenticated w = true ->
  sessions_get sessionId st = Some r ->
  heap st !! r = Some s ->
  let s' := mkSession (pty s) (buffer s) (status s)
              (match name with Some n => n | None => EmptyString end)
              (createdAt s) (clients s) in
  let st' := store r s' st in
  on_message env ws (Some (MRename sessionId name)) st
  = match name with
    | Some (String c n) =>
        (tt, st',
         WriteRecord (mkRecord sessionId (String c n) (Some (buffer s))
                        (status_str (status s)) (createdAt s))
         :: sends env (sessions_msg (getSessionList st')) (wss_clients st))
    | _ => (tt, st, [])
    end.
Proof.
  intros Hw Hauth Hr Hs s' st'.
  rewrite (on_message_authenticated env st ws w) by (assumption || reflexivity).
  cbn [dispatch]. unfold handle_rename. run_monad. rewrite Hr.
  destruct name as [[|c n]|]; cbn [JsString.truthy]; try reflexivity.
  run_monad. rewrite saveSession_run; run_monad.
  rewrite broadcastSessionList_run; run_monad.
  unfold saved, sessions_get. cbn [sessions with_heap]. fold (sessions_get sessionId st).
  rewrite Hr. subst st' s'. unfold store. heap_norm Hs.
  rewrite ?app_nil_r. reflexivity.
Qed.

(** ** Authentication *)

(** X9. With a PIN configured, an [auth] message on an unauthenticated
    connection with a PIN whose hash is the configured one is answered
    with [auth_success] followed by the session list, and the next
    [list] message of the connection is served; with any other PIN it is
    answered with [auth_failed] alone, the state is unchanged, and the
    next [list] message is still refused. *)
Theorem auth_then_list env env' st (ws : conn) w pinConfig pin :
  conns st !! ws = Some w ->
  isAuthenticated w = false ->
  getPinConfig env = Some pinConfig ->
  let r1 := on_message env ws (Some (MAuth pin)) st in
  let r2 := on_message env' ws (Some MList) (final r1) in
  if String.eqb (hashPin env pin) (pin_hash pinConfig)
  then effects r1 = [Send ws auth_success; Send ws (sessions_msg (getSessionList st))]
       /\ sessions (final r1) = sessions st /\ heap (final r1) = heap st
       /\ effects r2 = [Send ws (sessions_msg (getSessionList st))]
  else r1 = (tt, st, [Send ws auth_failed])
       /\ effects r2 = [Send ws (error "Not authenticated")].
Proof.
  intros Hw Hauth Hpin r1 r2.
  assert (Hlt : ws < length (conns st)) by (eapply lookup_lt_Some; exact Hw).
  assert (H1 : r1 = if String.eqb (hashPin env pin) (pin_hash pinConfig)
                    then (tt, with_conns (alter (set_isAuthenticated true) ws) st,
                          [Send ws auth_success;
                           Send ws (sessions_msg (getSessionList st))])
                    else (tt, st, [Send ws auth_failed])).
  { subst r1. cbn [on_message]. unfold handle_auth, verifyPin. rewrite Hpin.
    destruct (String.eqb (hashPin env pin) (pin_hash pinConfig)); reflexivity. }
  subst r2. rewrite H1.
  destruct (String.eqb (hashPin env pin) (pin_hash pinConfig));
    unfold final, effects; cbn [fst snd].
  - repeat split.
    cbn [on_message]. run_monad. unfold ws_of. cbn [conns with_conns].
    rewrite list_lookup_total_alter_eq by exact Hlt.
    rewrite (list_lookup_total_correct _ _ _ Hw). reflexivity.
  - split; [reflexivity|].
    cbn [on_message]. run_monad. now rewrite (ws_of_lookup _ _ _ Hw), Hauth.
Qed.

(** ** Output *)

Lemma sends_In env m l c m' :
  In (Send c m') (sends env m l) <-> m' = m /\ In c l /\ ready_open env c = true.
Proof.
  induction l as [|x l IH]; simpl; [tauto|].
  destruct (ready_open env x) eqn:Hx; simpl; rewrite IH.
  - split.
    + intros [[= -> ->]|(-> & Hin & Ho)]; auto.
    + intros (-> & [->|Hin] & Ho); auto.
  - split.
    + intros (-> & Hin & Ho); auto.
    + intros (-> & [->|Hin] & Ho); [congruence | auto].
Qed.

Lemma sends_only_Send env m l e :
  In e (sends env m l) -> exists c, e = Send c m.
Proof.
  induction l as [|x l IH]; simpl; [tauto|].
  destruct (ready_open env x); simpl; [|exact IH].
  intros [<-|H]; eauto.
Qed.

(** X10. An output event of a pty handle makes the server send that
    output, tagged with the session id, to the connections that are in
    the client set of the handle's session and whose socket is open, and
    to no other connection; it does nothing else to the outside world
    (no record is written) and changes nothing but the buffer of that
    session. *)
Theorem output_reaches_only_session_clients env st (p : ptyref) sessionId
    (r : sref) s data :
  ptys st !! p = Some (sessionId, r) ->
  heap st !! r = Some s ->
  let res := step env (PtyData p data) st in
  (forall e, In e (effects res) <->
     exists c, e = Send c (output sessionId data)
               /\ In c (clients s) /\ ready_open env c = true)
  /\ final res = store r (set_buffer (appendOutput (buffer s) data) s) st.
Proof.
  intros Hp Hs res. subst res.
  rewrite (step_PtyData env p data st sessionId r Hp).
  pose proof (onData_run env sessionId r data st) as Hrun. cbv zeta in Hrun.
  rewrite Hrun. unfold final, effects. cbn [fst snd].
  unfold deref, store, with_heap. cbn [heap].
  rewrite (alter_insert _ _ _ _ Hs).
  rewrite lookup_total_after_insert by (eapply lookup_lt_Some; exact Hs).
  cbn [clients set_buffer]. split; [|reflexivity].
  intros e. split.
  - intros Hin. destruct (sends_only_Send _ _ _ _ Hin) as [c ->].
    exists c. apply sends_In in Hin. tauto.
  - intros (c & -> & Hin & Ho). now apply sends_In.
Qed.

(** ** Create, then attach *)



(** ** Attach when the socket file is gone *)


(** ** Attaching while attached elsewhere *)

(** The bridge block touches no session object but its own, and no
    connection. *)
Lemma bridge_frame env sessionId (r : sref) st :
  conns (final (bridge env sessionId r st)) = conns st
  /\ forall r' : sref, r' <> r ->
       heap (final (bridge env sessionId r st)) !! r' = heap st !! r'.
Proof.
  unfold bridge, attachToDtach, socketExists. run_monad.
  destruct (negb (is_some (pty (deref r st)))
            && negb (status_eqb (status (deref r st)) Terminated));
    [|now split].
  destruct (socket_exists env sessionId).
  - destruct (socket_exists_again env sessionId); run_monad;
      rewrite broadcastSessionList_run; run_monad;
      unfold final; cbn [fst snd]; [|now split].
    split; [reflexivity|]. intros r' Hne. cbn [heap with_heap with_ptys].
    now rewrite !list_lookup_alter_ne by congruence.
  - rewrite saveSession_run. run_monad. rewrite broadcastSessionList_run.
    run_monad. unfold final; cbn [fst snd].
    split; [reflexivity|]. intros r' Hne. cbn [heap with_heap].
    now rewrite list_lookup_alter_ne by congruence.
Qed.

(** X13. An authenticated client that is attached to one session of the
    table and attaches to another one is taken out of the client set of
    the first: the first session keeps its other clients, its status,
    its handle and its buffer, and the connection is now attached to
    the second. *)
Theorem attach_leaves_previous env st (ws : conn) w a (ra : sref) sa
    sessionId (r : sref) :
  conns st !! ws = Some w ->
  isAuthenticated w = true ->
  attached_id w = Some a ->
  sessions_get a st = Some ra ->
  heap st !! ra = Some sa ->
  sessions_get sessionId st = Some r ->
  ra <> r ->
  let res := on_message env ws (Some (MAttach sessionId)) st in
  exists sa',
    heap (final res) !! ra = Some sa'
    /\ (forall c, In c (clients sa') <-> In c (clients sa) /\ c <> ws)
    /\ pty sa' = pty sa /\ status sa' = status sa /\ buffer sa' = buffer sa
    /\ attachedSession (ws_of ws (final res)) = Some sessionId.
Proof.
  intros Hw Hauth Ha Hra Hsa Hr Hne res.
  set (sa' := set_clients (JsSet.delete ws (clients sa)) sa).
  set (st1 := store ra sa' st).
  set (st2 := final (bridge env sessionId r st1)).
  assert (Hfinal : final res
    = with_heap (alter (fun s => set_clients (JsSet.add ws (clients s)) s) r)
        (with_conns (alter (set_attachedSession (Some sessionId)) ws) st2)).
  { subst res.
    rewrite (on_message_authenticated env st ws w) by (assumption || reflexivity).
    cbn [dispatch]. unfold handle_attach.
    rewrite final_bind. cbn [gets result final fst snd]. rewrite Hr.
    rewrite final_bind, (leave_attached_run ws st w a ra sa) by assumption.
    cbn [result final fst snd]. fold sa' st1.
    rewrite final_bind. fold st2.
    rewrite final_bind. cbn [mutate_ws modify result final fst snd].
    rewrite final_bind. cbn [mutate modify result final fst snd].
    rewrite final_bind. cbn [gets result final fst snd].
    rewrite final_bind. cbn [emit result final fst snd].
    unfold when. now destruct (JsString.truthy _). }
  destruct (bridge_frame env sessionId r st1) as [Hconns Hframe].
  fold st2 in Hconns, Hframe.
  exists sa'. rewrite Hfinal. split.
  { cbn [heap with_heap with_conns].
    rewrite list_lookup_alter_ne by congruence.
    rewrite Hframe by exact Hne. apply heap_store.
    eapply lookup_lt_Some; exact Hsa. }
  split; [intros c; apply JsSet_delete_In|].
  do 3 (split; [reflexivity|]).
  unfold ws_of. cbn [conns with_heap with_conns]. rewrite Hconns.
  cbn [conns st1 store with_heap].
  rewrite list_lookup_total_alter_eq by (eapply lookup_lt_Some; exact Hw).
  reflexivity.
Qed.

(** ** The heartbeat *)

Lemma alter_set_isAlive_id (ws : conn) (l : list wsobj) :
  isAlive (l !!! ws) = false -> alter (set_isAlive false) ws l = l.
Proof.
  intros H. apply list_eq. intros i.
  destruct (decide (i = ws)) as [->|Hne].
  - rewrite list_lookup_alter_eq. destruct (l !! ws) as [w|] eqn:Hw; [|reflexivity].
    rewrite (list_lookup_total_correct _ _ _ Hw) in H.
    destruct w as [a at_ au]. cbn in H. subst a. reflexivity.
  - now rewrite list_lookup_alter_ne by congruence.
Qed.

Lemma marked_length cs l : length (marked cs l) = length l.
Proof.
  revert l. induction cs as [|c cs IH]; intros l; [reflexivity|].
  cbn [marked foldl]. fold (marked cs (alter (set_isAlive false) c l)).
  now rewrite IH, length_alter.
Qed.

Lemma marked_lookup_out cs l (c : conn) :
  ~ In c cs -> marked cs l !! c = l !! c.
Proof.
  revert l. induction cs as [|x cs IH]; intros l Hc; [reflexivity|].
  cbn [marked foldl]. fold (marked cs (alter (set_isAlive false) x l)).
  rewrite IH by (intros H; apply Hc; now right).
  apply list_lookup_alter_ne. intros ->. apply Hc. now left.
Qed.

Lemma marked_lookup_in cs l (c : conn) w :
  In c cs -> l !! c = Some w ->
  exists w', marked cs l !! c = Some w' /\ isAlive w' = false
             /\ attachedSession w' = attachedSession w
             /\ isAuthenticated w' = isAuthenticated w.
Proof.
  revert l w. induction cs as [|x cs IH]; intros l w Hin Hw; [destruct Hin|].
  cbn [marked foldl]. fold (marked cs (alter (set_isAlive false) x l)).
  destruct (decide (x = c)) as [->|Hne].
  - assert (Hw' : alter (set_isAlive false) c l !! c = Some (set_isAlive false w))
      by (rewrite list_lookup_alter_eq, Hw; reflexivity).
    destruct (in_dec Nat.eq_dec c cs) as [Hc|Hc].
    + destruct (IH _ _ Hc Hw') as (w' & H1 & H2 & H3 & H4). now exists w'.
    + exists (set_isAlive false w). split; [|now repeat split].
      now rewrite marked_lookup_out.
  - destruct Hin as [->|Hin]; [contradiction|].
    apply IH; [exact Hin|]. now rewrite list_lookup_alter_ne by congruence.
Qed.

Lemma heartbeat_each_run cs st :
  NoDup cs ->
  heartbeat_each cs st
  = (List.filter (fun ws => negb (isAlive (ws_of ws st))) cs,
     with_conns (marked cs) st, []).
Proof.
  revert st. induction cs as [|ws cs IH]; intros st Hnd.
  - cbn. now destruct st.
  - apply NoDup_cons in Hnd as [Hnotin Hnd].
    cbn [heartbeat_each List.filter marked foldl].
    fold (marked cs (alter (set_isAlive false) ws (conns st))).
    unfold bind at 1. cbn [gets].
    destruct (isAlive (ws_of ws st)) eqn:Ha; cbn [negb].
    + unfold bind, mutate_ws, modify.
      rewrite IH by exact Hnd. cbn [app]. f_equal. f_equal.
      apply filter_ext_in. intros c Hc. unfold ws_of.
      cbn [conns with_conns].
      rewrite list_lookup_total_alter_ne; [reflexivity|].
      intros ->. apply Hnotin. now apply list_elem_of_In.
    + unfold bind, ret. rewrite IH by exact Hnd. cbn [app].
      unfold with_conns. cbn [marked foldl].
      now rewrite (alter_set_isAlive_id ws (conns st) Ha).
Qed.

Lemma heartbeat_run st :
  NoDup (wss_clients st) ->
  heartbeat st
  = (List.filter (fun ws => negb (isAlive (ws_of ws st))) (wss_clients st),
     with_conns (marked (wss_clients st)) st, []).
Proof.
  intros Hnd. unfold heartbeat, bind at 1. cbn [gets].
  now rewrite heartbeat_each_run.
Qed.

(** X14. The heartbeat terminates exactly the connections of [wss.clients]
    whose [isAlive] is false, in the order of the set; afterwards
    [isAlive] is false on every connection of [wss.clients], and nothing
    else has changed: no session, no table entry, no membership in
    [wss.clients], no attachment or authentication of a connection, and
    nothing is sent. *)
Theorem heartbeat_terminates_the_silent st :
  NoDup (wss_clients st) ->
  let res := heartbeat st in
  result res
  = List.filter (fun ws => negb (isAlive (ws_of ws st))) (wss_clients st)
  /\ effects res = []
  /\ heap (final res) = heap st
  /\ sessions (final res) = sessions st
  /\ ptys (final res) = ptys st
  /\ wss_clients (final res) = wss_clients st
  /\ (forall (c : conn) w, In c (wss_clients st) -> conns st !! c = Some w ->
        exists w', conns (final res) !! c = Some w'
                   /\ isAlive w' = false
                   /\ attachedSession w' = attachedSession w
                   /\ isAuthenticated w' = isAuthenticated w)
  /\ (forall c : conn, ~ In c (wss_clients st) ->
        conns (final res) !! c = conns st !! c).
Proof.
  intros Hnd res. subst res. rewrite heartbeat_run by exact Hnd.
  cbn [result effects final fst snd heap sessions ptys wss_clients conns with_conns].
  do 6 (split; [reflexivity|]).
  split.
  - intros c w Hin Hw. now apply marked_lookup_in.
  - intros c Hc. now apply marked_lookup_out.
Qed.

(** *** [wss.clients] between heartbeats *)

Lemma Pres_registered_same f :
  (forall st, wss_clients (f st) = wss_clients st) ->
  (forall st, length (conns (f st)) = length (conns st)) ->
  Pres registered_once (modify f).
Proof.
  intros Hc Hl. apply Pres_modify. intros st H.
  unfold registered_once. now rewrite Hc, Hl.
Qed.

Lemma Pres_registered_mutate_ws (c : conn) f :
  Pres registered_once (mutate_ws c f).
Proof.
  apply Pres_registered_same; intros st; [reflexivity|].
  cbn. apply length_alter.
Qed.

Lemma Pres_registered_alloc s : Pres registered_once (alloc s).
Proof. now intros st H. Qed.

Lemma Pres_registered_delete (ws : conn) :
  Pres registered_once (modify (with_wss_clients (JsSet.delete ws))).
Proof.
  apply Pres_modify. intros st [Hnd Hlt]. split; cbn.
  - now apply NoDup_filter.
  - rewrite Forall_forall in *. intros x Hx.
    apply list_elem_of_filter in Hx as [_ Hx]. now apply Hlt.
Qed.

Lemma registered_once_connection env : Pres registered_once (on_connection env).
Proof.
  intros st [Hnd Hlt].
  assert (Hfinal : final (on_connection env st)
    = with_wss_clients (fun l => l ++ [length (conns st)])
        (with_conns (fun l => l ++ [mkWs true None (negb (is_some (getPinConfig env)))])
           st)).
  { unfold on_connection. run_monad. now destruct (getPinConfig env). }
  rewrite Hfinal. split; cbn.
  - apply NoDup_app. repeat split; [exact Hnd| |apply NoDup_singleton].
    intros x Hx Hn. apply list_elem_of_singleton in Hn. subst x.
    rewrite Forall_forall in Hlt. specialize (Hlt _ Hx). lia.
  - rewrite length_app. cbn. apply Forall_app. split.
    + eapply Forall_impl; [exact Hlt|]. cbn. intros; lia.
    + constructor; [lia | constructor].
Qed.

Ltac registered_prim :=
  first
    [ apply Pres_registered_delete | apply Pres_registered_alloc
    | apply Pres_registered_mutate_ws
    | apply Pres_registered_same; reflexivity ].

Lemma registered_once_step env ev : Pres registered_once (step env ev).
Proof.
  destruct ev as [|ws [msg|]|ws|p data|p|]; cbn [step on_message].
  1: apply Pres_bind; [apply registered_once_connection | intros; apply Pres_ret].
  1: destruct msg; cbn [dispatch].
  all: unfold on_close, save_all, handle_auth, dispatch.
  all: pres_with registered_prim.
Qed.

Lemma registered_once_reachable st : reachable st -> registered_once st.
Proof.
  intros (env & files & evs & ->).
  apply Pres_run; [apply registered_once_step|].
  assert (H : Pres registered_once (loadSessions env files)).
  { induction files as [|[file content] files IH]; cbn [loadSessions];
      pres_with registered_prim; exact IH. }
  apply H. split; constructor.
Qed.

(** *** What sets [isAlive] *)

Lemma Pres_alive_same ws f :
  (forall st, conns (f st) = conns st) -> Pres (not_alive ws) (modify f).
Proof. intros Hf. apply Pres_modify. intros st H. unfold not_alive. now rewrite Hf. Qed.

Lemma Pres_alive_alloc ws s : Pres (not_alive ws) (alloc s).
Proof. now intros st H. Qed.

Lemma Pres_alive_mutate_ws ws (c : conn) f :
  (forall w, isAlive (f w) = isAlive w) -> Pres (not_alive ws) (mutate_ws c f).
Proof.
  intros Hf. apply Pres_modify. intros st (w & Hw & Ha). unfold not_alive. cbn.
  destruct (decide (c = ws)) as [->|Hne].
  - exists (f w). rewrite list_lookup_alter_eq, Hw. split; [reflexivity|].
    now rewrite Hf.
  - exists w. now rewrite list_lookup_alter_ne by congruence.
Qed.

Lemma Pres_alive_other ws (c : conn) f :
  c <> ws -> Pres (not_alive ws) (mutate_ws c f).
Proof.
  intros Hne. apply Pres_modify. intros st (w & Hw & Ha). exists w. cbn.
  now rewrite list_lookup_alter_ne by congruence.
Qed.

Lemma Pres_alive_push ws x :
  Pres (not_alive ws) (modify (with_conns (fun l => l ++ [x]))).
Proof.
  apply Pres_modify. intros st (w & Hw & Ha). exists w. cbn.
  split; [now apply lookup_app_l_Some | exact Ha].
Qed.

Ltac alive_prim :=
  first
    [ apply Pres_alive_push | apply Pres_alive_alloc
    | apply Pres_alive_mutate_ws; reflexivity
    | apply Pres_alive_same; reflexivity ].

(** Only a [ping] of the connection itself sets its [isAlive] again. *)
Lemma not_alive_step ws env ev :
  ev <> Message ws (Some MPing) -> Pres (not_alive ws) (step env ev).
Proof.
  intros Hev.
  destruct ev as [|ws' [msg|]|ws'|p data|p|]; cbn [step on_message].
  2: destruct msg; cbn [dispatch].
  all: unfold on_connection, on_close, save_all, handle_auth, dispatch.
  all: try solve [pres_with alive_prim].
  apply Pres_bind; [apply Pres_gets|]. intros w.
  destruct (negb (isAuthenticated w)); [apply Pres_emit|].
  apply Pres_bind; [|intros; apply Pres_emit].
  apply Pres_alive_other. intros ->. now apply Hev.
Qed.

Lemma not_alive_run ws evs st :
  Forall (fun x : Env * event => snd x <> Message ws (Some MPing)) evs ->
  not_alive ws st -> not_alive ws (fst (run evs st)).
Proof.
  intros Hevs. revert st.
  induction Hevs as [|[env ev] evs Hev _ IH]; intros st H; [exact H|].
  rewrite run_cons. cbn [fst]. apply IH. now apply not_alive_step.
Qed.

(** X15. A connection that sends no [ping] between two heartbeats is
    terminated by the second one, whatever else happens in between,
    including other messages of the same connection: if it is in
    [wss.clients] at the first heartbeat and still there at the second,
    it is among the connections the second one terminates. *)
Theorem silent_connection_terminated st (ws : conn) w evs :
  registered_once st ->
  conns st !! ws = Some w ->
  In ws (wss_clients st) ->
  Forall (fun x : Env * event => snd x <> Message ws (Some MPing)) evs ->
  let st1 := final (heartbeat st) in
  let st2 := fst (run evs st1) in
  In ws (wss_clients st2) ->
  In ws (result (heartbeat st2)).
Proof.
  intros Hreg Hw Hin Hevs st1 st2 Hin2.
  assert (Hst1 : st1 = with_conns (marked (wss_clients st)) st).
  { subst st1. now rewrite heartbeat_run by apply Hreg. }
  assert (Hreg1 : registered_once st1).
  { rewrite Hst1. destruct Hreg as [Hnd Hlt]. split; cbn; [exact Hnd|].
    now rewrite marked_length. }
  assert (Hna1 : not_alive ws st1).
  { rewrite Hst1.
    destruct (marked_lookup_in (wss_clients st) (conns st) ws w Hin Hw)
      as (w' & Hw' & Ha & _).
    now exists w'. }
  assert (Hreg2 : registered_once st2)
    by (apply Pres_run; [apply registered_once_step | exact Hreg1]).
  destruct (not_alive_run ws evs st1 Hevs Hna1) as (w2 & Hw2 & Ha2).
  fold st2 in Hw2.
  rewrite heartbeat_run by apply Hreg2. cbn [result fst].
  apply filter_In. split; [exact Hin2|].
  now rewrite (ws_of_lookup _ _ _ Hw2), Ha2.
Qed.

(** X16. A [ping] between two heartbeats keeps a connection from being
    terminated by the second one exactly when the connection is
    authenticated: the [ping] of a connection that has not passed the
    PIN is answered by the error and does not count. *)
Theorem ping_spares_only_authenticated env st (ws : conn) w :
  NoDup (wss_clients st) ->
  conns st !! ws = Some w ->
  In ws (wss_clients st) ->
  let st1 := final (heartbeat st) in
  let st2 := final (on_message env ws (Some MPing) st1) in
  In ws (result (heartbeat st2)) <-> isAuthenticated w = false.
Proof.
  intros Hnd Hw Hin st1 st2.
  assert (Hst1 : st1 = with_conns (marked (wss_clients st)) st).
  { subst st1. now rewrite heartbeat_run. }
  destruct (marked_lookup_in (wss_clients st) (conns st) ws w Hin Hw)
    as (w' & Hw' & Ha & _ & Hau).
  assert (Hw1 : conns st1 !! ws = Some w') by now rewrite Hst1.
  assert (Hst2 : st2 = if isAuthenticated w
                       then with_conns (alter (set_isAlive true) ws) st1
                       else st1).
  { subst st2. cbn [on_message]. run_monad.
    rewrite (ws_of_lookup _ _ _ Hw1), Hau.
    now destruct (isAuthenticated w). }
  assert (Hcl : wss_clients st2 = wss_clients st).
  { rewrite Hst2, Hst1. now destruct (isAuthenticated w). }
  rewrite heartbeat_run by now rewrite Hcl.
  cbn [result fst]. rewrite Hcl, filter_In.
  assert (Hal : isAlive (ws_of ws st2) = isAuthenticated w).
  { rewrite Hst2. destruct (isAuthenticated w).
    - unfold ws_of. cbn [conns with_conns].
      rewrite list_lookup_total_alter_eq by (eapply lookup_lt_Some; exact Hw1).
      reflexivity.
    - now rewrite (ws_of_lookup _ _ _ Hw1). }
  rewrite Hal. destruct (isAuthenticated w); cbn; intuition discriminate.
Qed.

(** ** Shutdown *)

Lemma bind_gets {A B} (f : state -> A) (k : A -> M B) st :
  bind (gets f) k st = k (f st) st.
Proof. unfold bind, gets. now destruct (k (f st) st) as [[b st'] e]. Qed.

Lemma JsMap_In_get {V} k (v : V) m :
  NoDup (map fst m) -> In (k, v) m -> JsMap.get k m = Some v.
Proof.
  induction m as [|[k' v'] m IH]; simpl; [tauto|].
  intros Hnd [Heq|Hin].
  - injection Heq as -> ->. now rewrite String.eqb_refl.
  - apply NoDup_cons in Hnd as [Hnotin Hnd].
    destruct (String.eqb_spec k k') as [->|Hne]; [|now apply IH].
    destruct Hnotin. apply list_elem_of_In.
    now apply (in_map fst) in Hin.
Qed.

Lemma but_status_alter v (r : sref) h :
  but_status (alter (set_status v) r h) = but_status h.
Proof.
  unfold but_status. apply list_eq. intros i.
  rewrite !list_lookup_fmap.
  destruct (decide (i = r)) as [->|Hne].
  - rewrite list_lookup_alter_eq. now destruct (h !! r).
  - now rewrite list_lookup_alter_ne by congruence.
Qed.

Lemma but_status_lookup h h' (r : sref) s :
  but_status h' = but_status h ->
  h !! r = Some s ->
  exists s', h' !! r = Some s'
             /\ pty s' = pty s /\ buffer s' = buffer s /\ name s' = name s
             /\ createdAt s' = createdAt s /\ clients s' = clients s.
Proof.
  intros Heq Hs.
  assert (H : but_status h' !! r = Some (set_status Detached s)).
  { rewrite Heq. unfold but_status. now rewrite list_lookup_fmap, Hs. }
  unfold but_status in H. rewrite list_lookup_fmap in H.
  destruct (h' !! r) as [s'|]; [|discriminate].
  exists s'. split; [reflexivity|].
  cbn [fmap option_fmap option_map] in H.
  injection H as H1 H2 H3 H4 H5. auto.
Qed.

Lemma shutdown_loop env st m st' :
  (forall id (r : sref), In (id, r) m ->
     sessions_get id st = Some r /\ r < length (heap st)) ->
  sessions st' = sessions st ->
  but_status (heap st') = but_status (heap st) ->
  let res := forEach m (fun '(id, session) =>
    let* s := gets (deref session) in
    match pty s with
    | Some p => emit (PtyKill p)
    | None => ret tt
    end ;;;
    mutate session (set_status (if socketExists env id then Detached else Terminated)) ;;;
    saveSession id) st' in
  effects res = flat_map (shutdown_entry env st) m
  /\ sessions (final res) = sessions st
  /\ but_status (heap (final res)) = but_status (heap st).
Proof.
  revert st'. induction m as [|[id r] m IH]; intros st' Hm Hsess Hheap res.
  - subst res. cbn. now split.
  - destruct (Hm id r (or_introl eq_refl)) as [Hget Hlt].
    apply lookup_lt_is_Some_2 in Hlt as [s Hs].
    destruct (but_status_lookup _ _ r s Hheap Hs)
      as (s' & Hs' & Hpty & Hbuf & Hname & Hcr & _).
    set (v := if socket_exists env id then Detached else Terminated).
    set (st1 := with_heap (alter (set_status v) r) st').
    assert (Hone : (let* s := gets (deref r) in
                    match pty s with
                    | Some p => emit (PtyKill p)
                    | None => ret tt
                    end ;;;
                    mutate r (set_status (if socketExists env id
                                          then Detached else Terminated)) ;;;
                    saveSession id) st'
                   = (tt, st1, shutdown_entry env st (id, r))).
    { unfold socketExists. fold v. unfold bind at 1. cbn [gets].
      rewrite (deref_lookup _ _ _ Hs').
      assert (Hsave : saveSession id st1
        = (tt, st1,
           [WriteRecord (mkRecord id (name s) (Some (buffer s)) (status_str v)
                           (createdAt s))])).
      { rewrite saveSession_run. unfold saved, sessions_get.
        cbn [sessions st1 with_heap]. rewrite Hsess.
        unfold sessions_get in Hget. rewrite Hget.
        assert (Hd : deref r st1 = set_status v s').
        { apply deref_lookup. cbn [heap st1 with_heap].
          now rewrite list_lookup_alter_eq, Hs'. }
        rewrite Hd. cbn [name buffer status createdAt set_status].
        now rewrite Hbuf, Hname, Hcr. }
      unfold shutdown_entry. cbn [fst snd].
      rewrite (deref_lookup _ _ _ Hs), <- Hpty.
      assert (Hv : status_str v
                   = if socket_exists env id then "detached" else "terminated")
        by (subst v; now destruct (socket_exists env id)).
      rewrite <- Hv.
      destruct (pty s'); run_monad; fold st1; rewrite Hsave; reflexivity. }
    destruct (IH st1) as (He & Hse & Hh).
    + intros id' r' Hin. apply Hm. now right.
    + exact Hsess.
    + cbn [heap st1 with_heap]. now rewrite but_status_alter.
    + subst res. cbn [forEach flat_map].
      rewrite (bind_run _ _ _ _ _ _ Hone).
      unfold effects, final in *. cbn [fst snd] in *. cbv beta.
      now rewrite He.
Qed.

(** X17. At shutdown, for every entry of the table in its order, the
    handle of the session is killed if there is one, and one record is
    written with the name, buffer and creation time of the session; the
    status written is [detached] when the socket file of the session
    exists and [terminated] when it does not, whatever the status was
    (also for a session the user has terminated): no record written at
    shutdown says [running]. The table is as before, and so are the
    members of every session object other than its status. *)
Theorem shutdown_saves_by_socket env st :
  unique_ids st ->
  wf st ->
  let res := shutdown_sessions env st in
  effects res = flat_map (shutdown_entry env st) (sessions st)
  /\ sessions (final res) = sessions st
  /\ (forall (r : sref) s, heap st !! r = Some s ->
        exists s', heap (final res) !! r = Some s'
                   /\ pty s' = pty s /\ buffer s' = buffer s /\ name s' = name s
                   /\ createdAt s' = createdAt s /\ clients s' = clients s).
Proof.
  intros Hu [Hwf _] res.
  destruct (shutdown_loop env st (sessions st) st) as (He & Hs & Hh);
    [|reflexivity|reflexivity|].
  { intros id r Hin. split.
    - now apply JsMap_In_get.
    - rewrite Forall_forall in Hwf.
      apply (Hwf (id, r)). now apply list_elem_of_In. }
  subst res. unfold shutdown_sessions. rewrite bind_gets.
  split; [exact He|]. split; [exact Hs|].
  intros r s Hr. now apply (but_status_lookup (heap st)).
Qed.

(** ** The periodic save, read back at startup *)

Lemma endsWith_json id : JsString.endsWith (id +:+ ".json") ".json" = true.
Proof.
  unfold JsString.endsWith. rewrite JsStringFacts.length_append.
  replace (String.length id + String.length ".json" - String.length ".json")
    with (String.length id) by lia.
  rewrite JsStringFacts.drop_append_le by lia.
  rewrite JsStringFacts.drop_all by lia.
  rewrite JsStringFacts.append_nil, String.eqb_refl. cbn [andb].
  apply Nat.leb_le. lia.
Qed.

Lemma save_loop l st :
  forEach l (fun '(id, _) => saveSession id) st
  = (tt, st, flat_map (fun x : string * sref => saved (fst x) st) l).
Proof.
  induction l as [|[id r] l IH]; [reflexivity|].
  cbn [forEach flat_map fst].
  rewrite (bind_run _ _ _ _ _ _ (saveSession_run id st)).
  now rewrite IH.
Qed.

Lemma save_all_records st :
  unique_ids st ->
  records_written (effects (save_all st)) = map (record_of st) (sessions st).
Proof.
  intros Hu. unfold save_all. rewrite bind_gets, save_loop. cbn [effects snd].
  assert (H : forall l, (forall x, In x l -> sessions_get (fst x) st = Some (snd x)) ->
            records_written (flat_map (fun x : string * sref => saved (fst x) st) l)
            = map (record_of st) l).
  { induction l as [|[id r] l IH]; intros Hl; [reflexivity|].
    cbn [flat_map map fst]. unfold saved at 1.
    pose proof (Hl (id, r) (or_introl eq_refl)) as Hget. cbn [fst snd] in Hget.
    rewrite Hget. cbn [app records_written snd].
    f_equal. apply IH. intros x Hx. apply Hl. now right. }
  apply H. intros [id r] Hin. now apply JsMap_In_get.
Qed.

(** What [loadSessions] makes of a directory that holds one record file
    per id. *)
Lemma load_record_files env recs files d :
  NoDup (map r_id recs) ->
  Permutation files (map record_file recs) ->
  In d recs ->
  let st' := final (loadSessions env files initial_state) in
  exists r : sref,
    sessions_get (r_id d) st' = Some r
    /\ heap st' !! r
       = Some (mkSession None (buffer_or_empty (r_buffer d))
                 (restored_status (r_status d) (socket_exists env (r_id d)))
                 (r_name d) (r_createdAt d) []).
Proof.
  intros Hnd Hperm Hd st'.
  assert (Hall : forall x, In x files -> exists d', In d' recs /\ x = record_file d').
  { intros x Hx. apply (Permutation_in _ Hperm) in Hx.
    apply in_map_iff in Hx as (d' & <- & Hd'). now exists d'. }
  assert (Hids : NoDup (map file_id files)).
  { replace (map r_id recs) with (map file_id (map record_file recs)) in Hnd
      by (rewrite map_map; now apply map_ext).
    now rewrite (Permutation_map file_id Hperm). }
  assert (Hin : In (record_file d) files).
  { apply (Permutation_in _ (Permutation_sym Hperm)). now apply in_map. }
  apply in_split in Hin as (pre & post & Hfiles).
  assert (Hpre : Forall loads_or_skipped pre).
  { apply Forall_forall. intros x Hx _.
    destruct (Hall x) as (d' & _ & ->); [|discriminate].
    rewrite Hfiles. apply in_or_app. left. now apply list_elem_of_In. }
  assert (Hpost : forall f d', In (f, Some d') post -> r_id d' <> r_id d).
  { intros f d' Hin Heq. rewrite Hfiles, map_app in Hids. cbn [map] in Hids.
    apply NoDup_app in Hids as (_ & _ & Hids).
    apply NoDup_cons in Hids as [Hids _]. apply Hids.
    apply list_elem_of_In. change (file_id (record_file d)) with (r_id d).
    rewrite <- Heq. change (r_id d') with (file_id (f, Some d')).
    now apply in_map. }
  subst st'. rewrite Hfiles. unfold record_file.
  rewrite loadSessions_app by assumption.
  rewrite loadSessions_record by apply endsWith_json.
  set (st0 := final (loadSessions env pre initial_state)).
  set (s := mkSession None (buffer_or_empty (r_buffer d))
              (restored_status (r_status d) (socket_exists env (r_id d)))
              (r_name d) (r_createdAt d) []).
  destruct (loadSessions_keeps env post (load_one env d st0) (r_id d)
              (length (heap st0)) s) as [Hget Hheap].
  - unfold sessions_get, load_one. cbn [sessions with_sessions with_heap].
    apply JsMap_get_set_eq.
  - unfold load_one. cbn [heap with_sessions with_heap].
    now apply list_lookup_middle.
  - exact Hpost.
  - exists (length (heap st0)). split; [exact Hget | exact Hheap].
Qed.

Lemma restored_status_str v hasSocket :
  restored_status (status_str v) hasSocket
  = match v with
    | Terminated => Terminated
    | _ => if hasSocket then Detached else Terminated
    end.
Proof. now destruct v. Qed.

(** X18. What the periodic save writes is what startup reads back. Take a
    state with one table entry per id, save all sessions into an empty
    directory, and start again from the listing of that directory, in
    any order. Every session of the table is in the new table under its
    id, with its name, buffer and creation time, without a handle and
    without clients; a terminated session is terminated, and any other
    session (running or detached) is detached when its socket file is
    there at startup and terminated when it is not. *)
Theorem saved_sessions_come_back env st files id (r : sref) s :
  unique_ids st ->
  Permutation files (map record_file (records_written (effects (save_all st)))) ->
  sessions_get id st = Some r ->
  heap st !! r = Some s ->
  let st' := final (loadSessions env files initial_state) in
  exists (r' : sref) s',
    sessions_get id st' = Some r'
    /\ heap st' !! r' = Some s'
    /\ name s' = name s /\ buffer s' = buffer s /\ createdAt s' = createdAt s
    /\ pty s' = None /\ clients s' = []
    /\ status s' = match status s with
                   | Terminated => Terminated
                   | _ => if socket_exists env id then Detached else Terminated
                   end.
Proof.
  intros Hu Hperm Hr Hs st'.
  rewrite save_all_records in Hperm by exact Hu.
  assert (Hin : In (id, r) (sessions st)) by now apply JsMap_get_In.
  destruct (load_record_files env (map (record_of st) (sessions st)) files
              (record_of st (id, r))) as (r' & Hget & Hheap).
  - rewrite map_map. erewrite map_ext; [exact Hu|]. now intros [id' r0].
  - exact Hperm.
  - now apply in_map.
  - cbn [record_of fst snd r_id r_name r_buffer r_status r_createdAt] in Hget, Hheap.
    rewrite (deref_lookup _ _ _ Hs) in Hheap.
    eexists r', _. split; [exact Hget|]. split; [exact Hheap|].
    cbn [name buffer createdAt pty clients status buffer_or_empty].
    do 5 (split; [reflexivity|]).
    apply restored_status_str.
Qed.

(** ** The command line *)

Lemma findIndex_Some {A} (f : A -> bool) l i :
  Cli.findIndex f l = Some i ->
  exists x, l !! i = Some x /\ f x = true.
Proof.
  revert i. induction l as [|x l IH]; intros i; cbn [Cli.findIndex]; [discriminate|].
  destruct (f x) eqn:Hx.
  - intros [= <-]. now exists x.
  - destruct (Cli.findIndex f l) as [j|]; [|discriminate].
    intros [= <-]. apply (IH j eq_refl).
Qed.

Lemma findIndex_None {A} (f : A -> bool) l :
  Cli.findIndex f l = None <-> Forall (fun x => f x = false) l.
Proof.
  induction l as [|x l IH]; cbn [Cli.findIndex].
  - split; [constructor | reflexivity].
  - destruct (f x) eqn:Hx.
    + split; [discriminate|]. intros H. apply Forall_cons in H as [H _]. congruence.
    + destruct (Cli.findIndex f l).
      * split; [discriminate|]. intros H. apply Forall_cons in H as [_ H].
        now apply IH in H.
      * split; [|reflexivity]. intros _. constructor; [exact Hx | now apply IH].
Qed.

Lemma existsb_eqb_false s l :
  existsb (String.eqb s) l = false <-> Forall (fun x => x <> s) l.
Proof.
  induction l as [|x l IH]; cbn [existsb].
  - split; [constructor | reflexivity].
  - rewrite orb_false_iff, IH, Forall_cons.
    destruct (String.eqb_spec s x); split; intros [H1 H2]; split; congruence.
Qed.

(** X19. A PIN is stored only for the argument that follows the first
    [-p] or [--pin], only when the arguments ask for no help, and only
    when that argument is made of 4 to 10 decimal digits; what is stored
    is the hash of that argument and its length. *)
Theorem pin_stored_is_valid hashPin args h n :
  Cli.startup hashPin args = Cli.PinSet h n ->
  exists i flag v,
    Cli.pinIndex args = Some i
    /\ args !! i = Some flag /\ (flag = "-p" \/ flag = "--pin")
    /\ args !! (i + 1) = Some v
    /\ Cli.digits_only v = true
    /\ 4 <= String.length v <= 10
    /\ h = hashPin v /\ n = String.length v
    /\ Cli.showHelp args = false.
Proof.
  unfold Cli.startup, Cli.parse_pin.
  destruct (Cli.showHelp args); [discriminate|].
  destruct (Cli.pinIndex args) as [i|] eqn:Hi; [|discriminate].
  destruct (args !! (i + 1)) as [v|] eqn:Hv; [|discriminate].
  destruct (JsString.truthy v && Cli.test_digits v); [|discriminate].
  destruct (Cli.test_pin v) eqn:Hpin; cbn [negb]; [|discriminate].
  intros [= <- <-].
  unfold Cli.pinIndex in Hi. pose proof Hi as Hi'.
  apply findIndex_Some in Hi' as (flag & Hflag & Hf).
  unfold Cli.test_pin in Hpin.
  apply andb_prop in Hpin as [Hpin Hmax]. apply andb_prop in Hpin as [Hdig Hmin].
  apply Nat.leb_le in Hmin, Hmax.
  exists i, flag, v. repeat split; try assumption; try reflexivity.
  apply orb_prop in Hf as [Hf|Hf]; apply String.eqb_eq in Hf; auto.
Qed.

(** X20. The script goes on to start the server exactly when no argument
    is [-h], [--help], [-p] or [--pin]; in every other case it exits
    before. *)
Theorem server_starts_without_pin_or_help hashPin args :
  (exists c t, Cli.startup hashPin args = Cli.Continue c t)
  <-> Forall (fun arg => arg <> "-h" /\ arg <> "--help"
                         /\ arg <> "-p" /\ arg <> "--pin") args.
Proof.
  assert (Hhelp : Cli.showHelp args = false
                  <-> Forall (fun arg => arg <> "-h" /\ arg <> "--help") args).
  { unfold Cli.showHelp. rewrite orb_false_iff, !existsb_eqb_false.
    rewrite Forall_and. reflexivity. }
  assert (Hpin : Cli.pinIndex args = None
                 <-> Forall (fun arg => arg <> "-p" /\ arg <> "--pin") args).
  { unfold Cli.pinIndex. rewrite findIndex_None.
    apply Forall_iff. intros x. rewrite orb_false_iff.
    destruct (String.eqb_spec x "-p"), (String.eqb_spec x "--pin");
      intuition congruence. }
  assert (Hall : Forall (fun arg => arg <> "-h" /\ arg <> "--help"
                                    /\ arg <> "-p" /\ arg <> "--pin") args
                 <-> Cli.showHelp args = false /\ Cli.pinIndex args = None).
  { rewrite Hhelp, Hpin, <- Forall_and. apply Forall_iff. intros x. tauto. }
  rewrite Hall. unfold Cli.startup, Cli.parse_pin.
  destruct (Cli.showHelp args).
  { split; [intros (c & t & H); discriminate | intros [H _]; discriminate]. }
  destruct (Cli.pinIndex args) as [i|].
  - split; [|intros [_ H]; discriminate].
    intros (c & t & H). exfalso.
    destruct (args !! (i + 1)) as [v|]; [|discriminate].
    destruct (JsString.truthy v && Cli.test_digits v); [|discriminate].
    destruct (negb (Cli.test_pin v)); discriminate.
  - split; [now intros _|]. intros _. now eexists _, _.
Qed.

(** ** The choice of the port *)

Lemma find_port_spec tryPort left port :
  match find_port tryPort port left with
  | Found p =>
      (port <= p < port + Z.of_nat left)%Z
      /\ tryPort p = Some true
      /\ (forall q, (port <= q < p)%Z -> tryPort q = Some false)
  | NoPort =>
      forall q, (port <= q < port + Z.of_nat left)%Z -> tryPort q = Some false
  | ProbeFailed =>
      exists p, (port <= p < port + Z.of_nat left)%Z
                /\ tryPort p = None
                /\ (forall q, (port <= q < p)%Z -> tryPort q = Some false)
  end.
Proof.
  revert port. induction left as [|left IH]; intros port; cbn [find_port].
  - intros q Hq. lia.
  - destruct (tryPort port) as [[|]|] eqn:Hp.
    + split; [lia|]. split; [exact Hp|]. intros q Hq. lia.
    + specialize (IH (port + 1)%Z).
      assert (Hq : forall p, (forall q, (port + 1 <= q < p)%Z -> tryPort q = Some false) ->
                   forall q, (port <= q < p)%Z -> tryPort q = Some false).
      { intros p H q Hq. destruct (Z.eq_dec q port) as [->|Hne]; [exact Hp|].
        apply H. lia. }
      destruct (find_port tryPort (port + 1) left) as [p| |].
      * destruct IH as (H1 & H2 & H3). split; [lia|]. split; [exact H2|]. now apply Hq.
      * apply Hq. intros q Hlt. apply IH. lia.
      * destruct IH as (p & H1 & H2 & H3). exists p.
        split; [lia|]. split; [exact H2|]. now apply Hq.
    + exists port. split; [lia|]. split; [exact Hp|]. intros q Hq. lia.
Qed.

(** X21. Called with a number, [findAvailablePort] probes the ports
    upwards from the start port and stops at the first probe that does
    not report the port in use.
    It returns a port exactly when the first such probe succeeds, and
    then the port is the least free one among the hundred ports from
    the start port; it reports that no port is available exactly when
    all hundred are in use; a probe that fails with another error ends
    the search with that error, and no later port is tried. *)
Theorem findAvailablePort_least tryPort startPort :
  match findAvailablePort tryPort startPort with
  | Found p =>
      (startPort <= p < startPort + 100)%Z
      /\ tryPort p = Some true
      /\ (forall q, (startPort <= q < p)%Z -> tryPort q = Some false)
  | NoPort =>
      forall q, (startPort <= q < startPort + 100)%Z -> tryPort q = Some false
  | ProbeFailed =>
      exists p, (startPort <= p < startPort + 100)%Z
                /\ tryPort p = None
                /\ (forall q, (startPort <= q < p)%Z -> tryPort q = Some false)
  end.
Proof. exact (find_port_spec tryPort 100 startPort). Qed.

(** * The properties at concrete inputs *)

Lemma outputBuffer_witness :
  let st' := fst (run (data_events 0 [(env_ok, "abc"); (env_ok, "def")]) st_attached) in
  String.length (buffer (deref 0 st')) <= MAX_BUFFER_SIZE
  /\ buffer (deref 0 st')
     = JsString.last_chars MAX_BUFFER_SIZE
         (EmptyString +:+ JsString.concat_all (map snd [(env_ok, "abc"); (env_ok, "def")])).
Proof.
  apply (outputBuffer_is_bounded_suffix st_attached 0 "k3j9x2ab" 0
           (mkSession (Some 0) EmptyString Running "Session 1" 1700000000000 [0])
           EmptyString [(env_ok, "abc"); (env_ok, "def")]); reflexivity.
Defined.

Lemma loadSessions_witness :
  let st := final (loadSessions env_socket_gone
                     ([("notes.txt", None)]
                      ++ ("k3j9x2ab.json", Some record_detached)
                      :: [("zz4411aa.json", Some record_terminated)])
                     initial_state) in
  exists (r : sref) s,
    sessions_get (r_id record_detached) st = Some r
    /\ heap st !! r = Some s
    /\ name s = r_name record_detached
    /\ buffer s = buffer_or_empty (r_buffer record_detached)
    /\ (r_status record_detached = "terminated" -> status s = Terminated)
    /\ (r_status record_detached <> "terminated" ->
        socket_exists env_socket_gone (r_id record_detached) = false ->
        status s = Terminated)
    /\ (r_status record_detached <> "terminated" ->
        socket_exists env_socket_gone (r_id record_detached) = true ->
        status s = Detached).
Proof.
  apply (loadSessions_reconciles_status env_socket_gone
           [("notes.txt", None)] "k3j9x2ab.json" record_detached
           [("zz4411aa.json", Some record_terminated)]).
  - constructor; [|constructor]. intros H. vm_compute in H. discriminate H.
  - reflexivity.
  - intros f d [H|[]]. inversion H. vm_compute. discriminate.
Defined.

Lemma unauthenticated_witness :
  on_message env_pin 0 (Some (MCreate None)) st_pin
  = (tt, st_pin, [Send 0 (error "Not authenticated")]).
Proof.
  apply (unauthenticated_rejected env_pin st_pin 0 (mkWs true None false));
    reflexivity.
Defined.

Lemma roundtrip_witness :
  let r1 := on_message env_ok 0 (Some (MTerminate "k3j9x2ab")) st_abc in
  let r2 := on_message env_ok 0 (Some (MReactivate "k3j9x2ab")) (final r1) in
  let r3 := on_message env_ok 0 (Some (MAttach "k3j9x2ab")) (final r2) in
  (status (deref 0 (final r1)) = Terminated /\ buffer (deref 0 (final r1)) = "abc")
  /\ (status (deref 0 (final r2)) = Detached /\ buffer (deref 0 (final r2)) = "abc")
  /\ (status (deref 0 (final r3)) = Running /\ buffer (deref 0 (final r3)) = "abc")
  /\ exists pre,
       Forall (fun e => bridge_effect e = true) pre
       /\ effects r3
          = pre ++ Send 0 (attached "k3j9x2ab" "Session 1" Running)
                :: (if JsString.truthy "abc"
                    then [Send 0 (history "k3j9x2ab" "abc")] else []).
Proof.
  apply (buffer_survives_terminate_reactivate env_ok env_ok env_ok st_abc 0
           (mkWs true (Some "k3j9x2ab") true) "k3j9x2ab" 0
           (mkSession (Some 0) "abc" Running "Session 1" 1700000000000 [0]) "abc");
    reflexivity.
Defined.

Lemma attach_witness :
  let res := on_message env_socket_gone 0 (Some (MAttach "k3j9x2ab")) st_abc_terminated in
  exists s' pre,
    heap (final res) !! 0 = Some s'
    /\ In 0 (clients s')
    /\ name s' = "Session 1" /\ buffer s' = "abc"
    /\ Forall (fun e => bridge_effect e = true) pre
    /\ effects res
       = pre ++ Send 0 (attached "k3j9x2ab" (name s') (status s'))
             :: (if JsString.truthy (buffer s')
                 then [Send 0 (history "k3j9x2ab" (buffer s'))] else [])
    /\ (Terminated = Terminated -> pre = [] /\ status s' = Terminated).
Proof.
  apply (attach_adds_client_and_replies env_socket_gone st_abc_terminated 0
           (mkWs true (Some "k3j9x2ab") true) "k3j9x2ab" 0
           (mkSession None "abc" Terminated "Session 1" 1700000000000 [0]));
    reflexivity.
Defined.

Lemma resize_witness :
  on_message env_ok 0 (Some (MResize 80 24)) st_abc
  = (tt, st_abc, [PtyResize 0 80 24]).
Proof.
  apply (resize_forwarded_when_nonzero env_ok st_abc 0
           (mkWs true (Some "k3j9x2ab") true) "k3j9x2ab" 0
           (mkSession (Some 0) "abc" Running "Session 1" 1700000000000 [0]) 80 24);
    reflexivity.
Defined.

Lemma unknown_id_witness :
  result (terminateSession env_ok "nosuchid" st_abc) = false
  /\ result (reactivateSession env_ok "nosuchid" st_abc) = false
  /\ result (deleteSession env_ok "nosuchid" st_abc) = false
  /\ on_message env_ok 0 (Some (MTerminate "nosuchid")) st_abc = (tt, st_abc, [])
  /\ on_message env_ok 0 (Some (MReactivate "nosuchid")) st_abc = (tt, st_abc, [])
  /\ on_message env_ok 0 (Some (MDelete "nosuchid")) st_abc = (tt, st_abc, []).
Proof.
  apply (unknown_id_silent_noop env_ok st_abc 0 (mkWs true (Some "k3j9x2ab") true)
           "nosuchid"); reflexivity.
Defined.



(** * The further properties at concrete inputs *)

Lemma reachable_st_two_terminated : reachable st_two_terminated.
Proof.
  exists env_ok, [],
    [(env_ok, Connection);
     (env_ok, Message 0 (Some (MCreate None)));
     (env_ok, Message 0 (Some (MAttach "k3j9x2ab")));
     (env_ok, PtyData 0 "abc");
     (env_second, Message 0 (Some (MCreate (Some "logs"))));
     (env_ok, Message 0 (Some (MTerminate "zz4411aa")))].
  reflexivity.
Qed.

Lemma reachable_st_two : reachable st_two.
Proof.
  exists env_ok, [],
    [(env_ok, Connection);
     (env_ok, Message 0 (Some (MCreate None)));
     (env_ok, Message 0 (Some (MAttach "k3j9x2ab")));
     (env_ok, PtyData 0 "abc");
     (env_second, Message 0 (Some (MCreate (Some "logs"))))].
  reflexivity.
Qed.

Lemma reachable_st_two_clients : reachable st_two_clients.
Proof.
  exists env_ok, [],
    [(env_ok, Connection);
     (env_ok, Message 0 (Some (MCreate None)));
     (env_ok, Message 0 (Some (MAttach "k3j9x2ab")));
     (env_ok, PtyData 0 "abc");
     (env_ok, Connection)].
  reflexivity.
Qed.

Lemma NoDup_st_one_silent : NoDup (wss_clients st_one_silent).
Proof.
  change (NoDup [0; 1]). apply NoDup_cons. split; [|apply NoDup_singleton].
  intros H. apply list_elem_of_singleton in H. discriminate H.
Qed.

Lemma terminate_known_session_witness :
  on_message env_ok 0 (Some (MTerminate "k3j9x2ab")) st_abc
  = (tt,
     mkState [mkSession None "abc" Terminated "Session 1" 1700000000000 [0]]
       (sessions st_abc) (ptys st_abc) (conns st_abc) (wss_clients st_abc),
     [PtyKill 0; KillSocketOwners "k3j9x2ab"; UnlinkSocketLater "k3j9x2ab";
      WriteRecord (mkRecord "k3j9x2ab" "Session 1" (Some "abc") "terminated"
                     1700000000000);
      Send 0 (terminated "k3j9x2ab");
      Send 0 (sessions_msg [mkEntry "k3j9x2ab" "Session 1" Terminated 1700000000000])]).
Proof.
  apply (terminate_known_session env_ok st_abc 0 ws_abc "k3j9x2ab" 0 session_abc);
    reflexivity.
Defined.

Lemma reactivate_outcome_witness :
  on_message env_ok 0 (Some (MReactivate "zz4411aa")) st_two_terminated
  = (tt, st_two,
     [DtachCreate "zz4411aa";
      WriteRecord (mkRecord "zz4411aa" "logs" (Some EmptyString) "detached"
                     1700000000100);
      Send 0 (sessions_msg [mkEntry "k3j9x2ab" "Session 1" Running 1700000000000;
                            mkEntry "zz4411aa" "logs" Detached 1700000000100])]).
Proof.
  apply (reactivate_outcome env_ok st_two_terminated 0 ws_abc "zz4411aa" 1
           (mkSession None EmptyString Terminated "logs" 1700000000100 []));
    reflexivity.
Defined.

Lemma delete_removes_session_witness :
  let res := on_message env_ok 0 (Some (MDelete "zz4411aa")) st_two in
  let st' := final res in
  sessions_get "zz4411aa" st' = None
  /\ (forall other, other <> "zz4411aa" ->
        sessions_get other st' = sessions_get other st_two)
  /\ heap st' = heap st_two
  /\ (In "zz4411aa" (map e_id (getSessionList st')) -> False)
  /\ effects res
     = [KillSocketOwners "zz4411aa"; UnlinkSocketLater "zz4411aa";
        UnlinkRecord "zz4411aa"; UnlinkSocket "zz4411aa";
        Send 0 (sessions_msg [mkEntry "k3j9x2ab" "Session 1" Running 1700000000000])]
  /\ on_message env_ok 0 (Some (MAttach "zz4411aa")) st'
     = (tt, st', [Send 0 (error "Session not found")]).
Proof.
  apply (delete_removes_session env_ok env_ok st_two 0 ws_abc "zz4411aa" 1
           (mkSession None EmptyString Detached "logs" 1700000000100 []));
    try reflexivity.
  apply unique_ids_reachable, reachable_st_two.
Defined.

Lemma detach_only_leaves_witness :
  let res := on_message env_ok 0 (Some MDetach) st_abc in
  exists s',
    effects res = []
    /\ heap (final res) = <[0 := s']> (heap st_abc)
    /\ sessions (final res) = sessions st_abc
    /\ (forall c, In c (clients s') <-> In c [0] /\ c <> 0)
    /\ pty s' = Some 0 /\ status s' = Running
    /\ buffer s' = "abc" /\ name s' = "Session 1"
    /\ attachedSession (ws_of 0 (final res)) = None.
Proof.
  apply (detach_only_leaves env_ok st_abc 0 ws_abc "k3j9x2ab" 0 session_abc);
    reflexivity.
Defined.

Lemma close_only_leaves_witness :
  let res := step env_ok (Close 0) st_abc in
  exists s',
    effects res = []
    /\ heap (final res) = <[0 := s']> (heap st_abc)
    /\ sessions (final res) = sessions st_abc
    /\ (forall c, In c (clients s') <-> In c [0] /\ c <> 0)
    /\ pty s' = Some 0 /\ status s' = Running
    /\ buffer s' = "abc" /\ name s' = "Session 1"
    /\ (forall c, In c (wss_clients (final res)) <-> In c (wss_clients st_abc) /\ c <> 0).
Proof.
  apply (close_only_leaves env_ok st_abc 0 ws_abc "k3j9x2ab" 0 session_abc);
    reflexivity.
Defined.

Lemma input_forwarded_or_dropped_witness :
  let res := on_message env_ok 0 (Some (MInput "ls")) st_abc in
  final res = st_abc
  /\ (effects res = []
      \/ exists a (r : sref) p,
           attached_id ws_abc = Some a /\ sessions_get a st_abc = Some r
           /\ pty (deref r st_abc) = Some p /\ status (deref r st_abc) = Running
           /\ effects res = [PtyWrite p "ls"])
  /\ (forall a (r : sref) p,
        attached_id ws_abc = Some a -> sessions_get a st_abc = Some r ->
        pty (deref r st_abc) = Some p -> status (deref r st_abc) = Running ->
        effects res = [PtyWrite p "ls"]).
Proof.
  apply (input_forwarded_or_dropped env_ok st_abc 0 ws_abc "ls"); reflexivity.
Defined.

Lemma rename_outcome_witness :
  on_message env_ok 0 (Some (MRename "k3j9x2ab" (Some "build"))) st_abc
  = (tt,
     store 0 (mkSession (Some 0) "abc" Running "build" 1700000000000 [0]) st_abc,
     [WriteRecord (mkRecord "k3j9x2ab" "build" (Some "abc") "running" 1700000000000);
      Send 0 (sessions_msg [mkEntry "k3j9x2ab" "build" Running 1700000000000])]).
Proof.
  apply (rename_outcome env_ok st_abc 0 ws_abc "k3j9x2ab" 0 session_abc (Some "build"));
    reflexivity.
Defined.

Lemma auth_then_list_witness :
  let r1 := on_message env_pin 0 (Some (MAuth "4321")) st_pin in
  let r2 := on_message env_ok 0 (Some MList) (final r1) in
  effects r1 = [Send 0 auth_success; Send 0 (sessions_msg (getSessionList st_pin))]
  /\ sessions (final r1) = sessions st_pin /\ heap (final r1) = heap st_pin
  /\ effects r2 = [Send 0 (sessions_msg (getSessionList st_pin))].
Proof.
  apply (auth_then_list env_pin env_ok st_pin 0 (mkWs true None false)
           (mkPin "hash-of-4321" 4) "4321"); reflexivity.
Defined.

Lemma output_reaches_only_session_clients_witness :
  let res := step env_ok (PtyData 0 "def") st_abc in
  (forall e, In e (effects res) <->
     exists c, e = Send c (output "k3j9x2ab" "def")
               /\ In c [0] /\ ready_open env_ok c = true)
  /\ final res = store 0 (set_buffer (appendOutput "abc" "def") session_abc) st_abc.
Proof.
  apply (output_reaches_only_session_clients env_ok st_abc 0 "k3j9x2ab" 0
           session_abc "def"); reflexivity.
Defined.



Lemma attach_leaves_previous_witness :
  let res := on_message env_ok 0 (Some (MAttach "zz4411aa")) st_two in
  exists sa',
    heap (final res) !! 0 = Some sa'
    /\ (forall c, In c (clients sa') <-> In c [0] /\ c <> 0)
    /\ pty sa' = Some 0 /\ status sa' = Running /\ buffer sa' = "abc"
    /\ attachedSession (ws_of 0 (final res)) = Some "zz4411aa".
Proof.
  apply (attach_leaves_previous env_ok st_two 0 ws_abc "k3j9x2ab" 0 session_abc
           "zz4411aa" 1); try reflexivity.
  discriminate.
Defined.

Lemma heartbeat_witness :
  let res := heartbeat st_one_silent in
  result res = [1]
  /\ effects res = []
  /\ heap (final res) = heap st_one_silent
  /\ sessions (final res) = sessions st_one_silent
  /\ ptys (final res) = ptys st_one_silent
  /\ wss_clients (final res) = [0; 1]
  /\ (forall (c : conn) w, In c [0; 1] -> conns st_one_silent !! c = Some w ->
        exists w', conns (final res) !! c = Some w'
                   /\ isAlive w' = false
                   /\ attachedSession w' = attachedSession w
                   /\ isAuthenticated w' = isAuthenticated w)
  /\ (forall c : conn, ~ In c [0; 1] ->
        conns (final res) !! c = conns st_one_silent !! c).
Proof.
  apply (heartbeat_terminates_the_silent st_one_silent NoDup_st_one_silent).
Defined.

Lemma silent_connection_witness :
  let evs := [(env_ok, Message 0 (Some MPing));
              (env_ok, Message 1 (Some MList));
              (env_ok, PtyData 0 "def")] in
  In 1 (result (heartbeat (fst (run evs (final (heartbeat st_two_clients)))))).
Proof.
  apply (silent_connection_terminated st_two_clients 1 (mkWs true None true)).
  - apply registered_once_reachable, reachable_st_two_clients.
  - reflexivity.
  - right. left. reflexivity.
  - repeat constructor; cbn; discriminate.
  - right. left. reflexivity.
Defined.

Lemma ping_unauthenticated_witness :
  let st1 := final (heartbeat st_pin) in
  let st2 := final (on_message env_pin 0 (Some MPing) st1) in
  In 0 (result (heartbeat st2)) <-> false = false.
Proof.
  apply (ping_spares_only_authenticated env_pin st_pin 0 (mkWs true None false)).
  - apply NoDup_singleton.
  - reflexivity.
  - left. reflexivity.
Defined.

Lemma shutdown_witness :
  let res := shutdown_sessions env_one_socket st_two_terminated in
  effects res
  = [PtyKill 0;
     WriteRecord (mkRecord "k3j9x2ab" "Session 1" (Some "abc") "detached"
                    1700000000000);
     WriteRecord (mkRecord "zz4411aa" "logs" (Some EmptyString) "terminated"
                    1700000000100)]
  /\ sessions (final res) = sessions st_two_terminated
  /\ (forall (r : sref) s, heap st_two_terminated !! r = Some s ->
        exists s', heap (final res) !! r = Some s'
                   /\ pty s' = pty s /\ buffer s' = buffer s /\ name s' = name s
                   /\ createdAt s' = createdAt s /\ clients s' = clients s).
Proof.
  apply (shutdown_saves_by_socket env_one_socket st_two_terminated).
  - apply unique_ids_reachable, reachable_st_two_terminated.
  - apply wf_of_reachable, reachable_st_two_terminated.
Defined.

Lemma saved_sessions_witness :
  let st' := final (loadSessions env_ok files_two initial_state) in
  exists (r' : sref) s',
    sessions_get "k3j9x2ab" st' = Some r'
    /\ heap st' !! r' = Some s'
    /\ name s' = "Session 1" /\ buffer s' = "abc" /\ createdAt s' = 1700000000000%Z
    /\ pty s' = None /\ clients s' = []
    /\ status s' = Detached.
Proof.
  apply (saved_sessions_come_back env_ok st_two_terminated files_two "k3j9x2ab" 0
           session_abc).
  - apply unique_ids_reachable, reachable_st_two_terminated.
  - apply perm_swap.
  - reflexivity.
  - reflexivity.
Defined.

Lemma pin_stored_witness :
  exists i flag v,
    Cli.pinIndex ["-t"; "-p"; "4321"] = Some i
    /\ ["-t"; "-p"; "4321"] !! i = Some flag /\ (flag = "-p" \/ flag = "--pin")
    /\ ["-t"; "-p"; "4321"] !! (i + 1) = Some v
    /\ Cli.digits_only v = true
    /\ 4 <= String.length v <= 10
    /\ "hash-of-4321" = hashPin env_pin v /\ 4 = String.length v
    /\ Cli.showHelp ["-t"; "-p"; "4321"] = false.
Proof.
  apply (pin_stored_is_valid (hashPin env_pin) ["-t"; "-p"; "4321"] "hash-of-4321" 4).
  reflexivity.
Defined.

Lemma buffer_over_run_witness :
  let evs := [(env_ok, PtyData 0 "def");
              (env_ok, Message 0 (Some MDetach));
              (env_ok, PtyData 0 "ghi")] in
  exists s',
    heap (fst (run evs st_abc)) !! 0 = Some s'
    /\ buffer s'
       = JsString.last_chars MAX_BUFFER_SIZE ("abc" +:+ written_to 0 evs st_abc)
    /\ String.length (buffer s') <= MAX_BUFFER_SIZE.
Proof.
  apply (buffer_is_suffix_over_any_run
           [(env_ok, PtyData 0 "def");
            (env_ok, Message 0 (Some MDetach));
            (env_ok, PtyData 0 "ghi")] st_abc 0 session_abc "abc"); reflexivity.
Defined.

Lemma exit_after_terminate_witness :
  let st1 := final (terminateSession env_ok "k3j9x2ab" st_abc) in
  let st2 := final (step env_ok (PtyExit 0) st1) in
  status (deref 0 st1) = Terminated /\ status (deref 0 st2) = Detached.
Proof.
  apply (exit_after_terminate_detaches env_ok env_ok st_abc "k3j9x2ab" 0
           session_abc 0); reflexivity.
Defined.

Lemma create_failure_witness :
  on_message env_dtach_fails 0 (Some (MCreate (Some "logs"))) st_abc
  = (tt, st_abc, [DtachCreate "zz4411aa"; Send 0 (error "Failed to create session")]).
Proof.
  apply (create_failure_reply env_dtach_fails st_abc 0 ws_abc (Some "logs"));
    reflexivity.
Defined.

(** ** The definitions on small inputs *)

Example generateId_example : generateId env_ok = "k3j9x2ab".
Proof. reflexivity. Qed.

Example slice_last_example :
  JsString.slice_last 3 "abcdef" = "def"
  /\ JsString.slice_last 9 "abcdef" = "abcdef"
  /\ JsString.slice_last 0 "abcdef" = "abcdef".
Proof. repeat split. Qed.

Example endsWith_example :
  JsString.endsWith "k3j9x2ab.json" ".json" = true
  /\ JsString.endsWith "json" ".json" = false
  /\ JsString.endsWith "notes.txt" ".json" = false.
Proof. repeat split. Qed.

Example default_name_example : default_name 11 = "Session 12".
Proof. reflexivity. Qed.

(** Entries with equal [createdAt] keep the order of the table. *)
Example sort_by_createdAt_example :
  sort_by_createdAt
    [mkEntry "c" "third" Running 30; mkEntry "a" "first" Detached 10;
     mkEntry "b" "second" Terminated 10]
  = [mkEntry "a" "first" Detached 10; mkEntry "b" "second" Terminated 10;
     mkEntry "c" "third" Running 30].
Proof. reflexivity. Qed.

(** The [Map] keeps the position of a key that is set again. *)
Example JsMap_set_example :
  JsMap.set "a" 7 [("a", 1); ("b", 2)] = [("a", 7); ("b", 2)]
  /\ JsMap.set "c" 3 [("a", 1); ("b", 2)] = [("a", 1); ("b", 2); ("c", 3)]
  /\ JsMap.delete "a" [("a", 1); ("b", 2)] = [("b", 2)].
Proof. repeat split. Qed.

(** A [create] message when dtach fails to start, in the scenario. *)
Example create_failure_example :
  on_message
    (mkEnv "0.zzzzzzzzzz" 1700000000500 false (fun _ => true) (fun _ => true)
       (fun _ => true) None (fun pin => pin))
    0 (Some (MCreate (Some "work"))) st_abc
  = (tt, st_abc, [DtachCreate "zzzzzzzz"; Send 0 (error "Failed to create session")]).
Proof. reflexivity. Qed.
